(** * libbf: a shallow embedding of the tokenizer, parser and runtime

    The development follows the crate layout:
    - [program/mod.rs]: [Instruction], [FatInstruction], [ProgramIndex];
    - [runtime/internal.rs]: [Memory], [Runtime::exec_one];
    - [runtime/mod.rs]: the run-to-completion entry points [run] and
      [run_with_memsize], with the older private runtime they use;
    - [runtime/runner.rs] and [runtime/step_runner.rs]: the two drivers;
    - [parser/mod.rs]: the plain and the annotated (fat) parsers;
    - [token/simple/mod.rs]: the symbol-table tokenizer;
    - [predefined/ook.rs]: the Ook! tokenizer.

    Machine integers ([isize], [usize]) are [Z] and [nat]; a byte ([u8])
    is a [Z] in [0, 256).  Source texts are [Str], lists of Unicode
    scalar values; byte offsets are measured with their UTF-8 length
    [str_len], char offsets with [length]. *)

From Stdlib Require Import String Ascii.
From Stdlib Require Import List ZArith Lia Bool Sorting Permutation.
Import ListNotations.
Open Scope Z_scope.

(* ------------------------------------------------------------------ *)
(** ** Program model ([program/mod.rs]) *)

Inductive Instruction : Type :=
| PAdd (operand : Z)
| DAdd (operand : Z)
| Output
| Input
| UntilZero (sub : list Instruction).

(** [Program] is a newtype around [Vec<Instruction>]. *)
Definition Program := list Instruction.

(** [ProgramIndex] is a newtype around [Vec<usize>]. *)
Definition ProgramIndex := list nat.

(** [Program::first_index] *)
Definition first_index (p : Program) : option ProgramIndex :=
  match p with
  | [] => None
  | _ => Some [0%nat]
  end.

(** [ProgramIndex::step_in]: push a [0]. *)
Definition step_in (index : ProgramIndex) : ProgramIndex := index ++ [0%nat].

(** [ProgramIndex::step_out]: pop the last element and report whether
    the index is still non-empty. *)
Definition step_out (index : ProgramIndex) : ProgramIndex * bool :=
  let index' := removelast index in
  (index', match index' with [] => false | _ => true end).

(** [Program::next_index_internal].  [None] is a panic (empty index,
    out-of-range slice index, or a recursive index through a non-loop
    instruction); otherwise the returned flag and the updated index. *)
Fixpoint next_index_internal (instructions : list Instruction) (index : list nat)
  : option (bool * list nat) :=
  match index with
  | [] => None
  | head :: tail =>
      match tail with
      | [] =>
          if (S head <? length instructions)%nat
          then Some (true, [S head])
          else Some (false, [head])
      | _ =>
          match nth_error instructions head with
          | Some (UntilZero sub) =>
              match next_index_internal sub tail with
              | Some (b, tail') => Some (b, head :: tail')
              | None => None
              end
          | _ => None
          end
      end
  end.

(** [Program::step_index] *)
Definition step_index (p : Program) (index : ProgramIndex) : option (bool * ProgramIndex) :=
  next_index_internal p index.

(** [instruction_at] (the [Index<&ProgramIndex>] implementation);
    [None] is a panic. *)
Fixpoint instruction_at (instructions : list Instruction) (index : list nat)
  : option Instruction :=
  match index with
  | [] => None
  | head :: tail =>
      match nth_error instructions head with
      | None => None
      | Some instruction =>
          match tail with
          | [] => Some instruction
          | _ =>
              match instruction with
              | UntilZero sub => instruction_at sub tail
              | _ => None
              end
          end
      end
  end.

(* ------------------------------------------------------------------ *)
(** ** Errors ([error/mod.rs]) *)

(** The kinds of [io::Error] the model distinguishes. *)
Inductive IoErrorKind : Type :=
| UnexpectedEof   (* [read_exact] ran out of bytes *)
| WriteZero       (* [write_all] could not write *)
| Interrupted     (* [ErrorKind::Interrupted] *)
| OtherIo.        (* any other transport failure *)

Inductive RuntimeError : Type :=
| OutOfMemoryBounds (address : Z)
| IoError (kind : IoErrorKind)
| Eof.

(* ------------------------------------------------------------------ *)
(** ** Memory ([runtime/internal.rs]) *)

Inductive MemorySize : Type :=
| Fixed (len : nat)
| RightInfinite
| BothInfinite.

(** [DEFAULT_MEMSIZE] *)
Definition DEFAULT_MEMSIZE : MemorySize := Fixed 30000.

Record Memory : Type := mkMemory {
  size : MemorySize;
  right_data : list Z;   (* memory data for [0..] *)
  left_data : list Z     (* memory data for [..-1] *)
}.

(** [Memory::new].  The panic for [len > isize::MAX] is not modelled. *)
Definition Memory_new (size : MemorySize) : Memory :=
  {| size := size;
     right_data := match size with Fixed len => repeat 0 len | _ => [] end;
     left_data := [] |}.

(** [Vec::resize(new_len, value)] *)
Definition vec_resize (v : list Z) (new_len : nat) (value : Z) : list Z :=
  firstn new_len v ++ repeat value (new_len - length v).

(** A location returned by [get_mut]: the [&mut u8] into one of the two
    buffers. *)
Inductive Loc : Type :=
| LRight (i : nat)
| LLeft (i : nat).

(** [Memory::get_mut]: on success, the (possibly grown) memory and the
    location of the cell. *)
Definition get_mut (m : Memory) (address : Z) : RuntimeError + (Memory * Loc) :=
  if 0 <=? address then
    let i := Z.to_nat address in
    if (length (right_data m) <=? i)%nat then
      match size m with
      | Fixed _ => inl (OutOfMemoryBounds address)
      | _ => inr ({| size := size m;
                     right_data := vec_resize (right_data m) (S i) 0;
                     left_data := left_data m |}, LRight i)
      end
    else inr (m, LRight i)
  else
    match size m with
    | BothInfinite =>
        let left_address := Z.to_nat (- (address + 1)) in
        if (length (left_data m) <=? left_address)%nat then
          inr ({| size := size m;
                  right_data := right_data m;
                  left_data := vec_resize (left_data m) (S left_address) 0 |},
               LLeft left_address)
        else inr (m, LLeft left_address)
    | _ => inl (OutOfMemoryBounds address)
    end.

(** Reading and writing through the reference. *)
Definition load (m : Memory) (l : Loc) : Z :=
  match l with
  | LRight i => nth i (right_data m) 0
  | LLeft i => nth i (left_data m) 0
  end.

Fixpoint list_set (v : list Z) (i : nat) (x : Z) : list Z :=
  match v, i with
  | [], _ => []
  | _ :: v', O => x :: v'
  | y :: v', S i' => y :: list_set v' i' x
  end.

Definition store (m : Memory) (l : Loc) (x : Z) : Memory :=
  match l with
  | LRight i => {| size := size m; right_data := list_set (right_data m) i x;
                   left_data := left_data m |}
  | LLeft i => {| size := size m; right_data := right_data m;
                  left_data := list_set (left_data m) i x |}
  end.

(* ------------------------------------------------------------------ *)
(** ** Byte streams *)

(** What one [read] of a one-byte buffer observes on the input: a byte,
    a read failing with [ErrorKind::Interrupted], or another transport
    failure.  An exhausted list is end-of-file ([read] returns [Ok(0)]). *)
Inductive InputEvent : Type :=
| InByte (b : Z)
| InInterrupted
| InFail.

(** The output writer: the bytes written so far and the room left
    ([None] for a growable [Vec<u8>], [Some n] for a fixed slice). *)
Record Sink : Type := mkSink {
  written : list Z;
  room : option nat
}.

Definition vec_sink : Sink := {| written := []; room := None |}.

(** [write_all] of one byte. *)
Definition write_byte (w : Sink) (b : Z) : option Sink :=
  match room w with
  | None => Some {| written := written w ++ [b]; room := None |}
  | Some O => None
  | Some (S n) => Some {| written := written w ++ [b]; room := Some n |}
  end.

(* ------------------------------------------------------------------ *)
(** ** The runtime ([runtime/internal.rs]) *)

Record Runtime : Type := mkRuntime {
  input : list InputEvent;
  output : Sink;
  memory : Memory;
  pointer : Z
}.

(** [Runtime::new] *)
Definition Runtime_new (inp : list InputEvent) (out : Sink) (memsize : MemorySize)
  : Runtime :=
  {| input := inp; output := out; memory := Memory_new memsize; pointer := 0 |}.

(** A [&mut self] method returning [Result<A, RuntimeError>]: the
    runtime after the call (also when it fails) and the result. *)
Definition RT (A : Type) : Type := Runtime -> Runtime * (RuntimeError + A).

Definition set_memory (rt : Runtime) (m : Memory) : Runtime :=
  {| input := input rt; output := output rt; memory := m; pointer := pointer rt |}.

(** [isize::wrapping_add] *)
Definition wrap_isize (x : Z) : Z := (x + 2 ^ 63) mod 2 ^ 64 - 2 ^ 63.

(** [as u8] *)
Definition as_u8 (x : Z) : Z := x mod 256.


(** [Runtime::add_pointer].  The pointer is a [Z]: the model agrees with
    the source as long as the sum is [in_isize]; beyond that the [+=]
    panics (debug builds) or wraps (release builds), which the model does
    not represent.  Properties that depend on it assume [in_isize]. *)
Definition add_pointer (operand : Z) : RT unit := fun rt =>
  ({| input := input rt; output := output rt; memory := memory rt;
      pointer := pointer rt + operand |}, inr tt).

(** [Runtime::add_data] *)
Definition add_data (operand : Z) : RT unit := fun rt =>
  match get_mut (memory rt) (pointer rt) with
  | inl e => (rt, inl e)
  | inr (m, l) =>
      (set_memory rt (store m l (as_u8 (wrap_isize (load m l + operand)))), inr tt)
  end.

(** [Runtime::input]: a [read] into the one-byte slice; [Ok(0)] is [Eof]. *)
Definition input_byte : RT unit := fun rt =>
  match get_mut (memory rt) (pointer rt) with
  | inl e => (rt, inl e)
  | inr (m, l) =>
      match input rt with
      | [] => (set_memory rt m, inl Eof)
      | InInterrupted :: rest =>
          ({| input := rest; output := output rt; memory := m; pointer := pointer rt |},
           inl (IoError Interrupted))
      | InFail :: rest =>
          ({| input := rest; output := output rt; memory := m; pointer := pointer rt |},
           inl (IoError OtherIo))
      | InByte b :: rest =>
          ({| input := rest; output := output rt; memory := store m l b;
              pointer := pointer rt |}, inr tt)
      end
  end.

(** [Runtime::output] *)
Definition output_byte : RT unit := fun rt =>
  match get_mut (memory rt) (pointer rt) with
  | inl e => (rt, inl e)
  | inr (m, l) =>
      match write_byte (output rt) (load m l) with
      | None => (set_memory rt m, inl (IoError WriteZero))
      | Some w =>
          ({| input := input rt; output := w; memory := m; pointer := pointer rt |}, inr tt)
      end
  end.

(** [NextAction] *)
Inductive NextAction : Type :=
| Next
| StepIn (sub : list Instruction).

(** [Runtime::exec_one] *)
Definition exec_one (inst : Instruction) : RT NextAction := fun rt =>
  let unit_then_next (r : Runtime * (RuntimeError + unit)) :=
    match r with
    | (rt', inl e) => (rt', inl e)
    | (rt', inr tt) => (rt', inr Next)
    end in
  match inst with
  | PAdd operand => unit_then_next (add_pointer operand rt)
  | DAdd operand => unit_then_next (add_data operand rt)
  | Output => unit_then_next (output_byte rt)
  | Input => unit_then_next (input_byte rt)
  | UntilZero sub =>
      match get_mut (memory rt) (pointer rt) with
      | inl e => (rt, inl e)
      | inr (m, l) =>
          if negb (load m l =? 0)
          then (set_memory rt m, inr (StepIn sub))
          else (set_memory rt m, inr Next)
      end
  end.

(* ------------------------------------------------------------------ *)
(** ** Drivers *)

(** The outcome of a whole run; [OutOfFuel] marks a run cut short by the
    fuel bound of the model (the Rust code has no bound). *)
Inductive Outcome : Type :=
| Done (rt : Runtime)
| Fail (rt : Runtime) (e : RuntimeError)
| OutOfFuel.

Module Runner.

(** [Runner::run_internal]: [for inst in instructions { while let
    StepIn(sub) = exec_one(inst)? { run_internal(sub)? } }].
    [run_inst] is the [while let] loop of one instruction. *)
Fixpoint run_internal (fuel : nat) (rt : Runtime) (instructions : list Instruction)
  : Outcome :=
  match fuel with
  | O => OutOfFuel
  | S f =>
      match instructions with
      | [] => Done rt
      | inst :: rest =>
          match run_inst f rt inst with
          | Done rt' => run_internal f rt' rest
          | o => o
          end
      end
  end
with run_inst (fuel : nat) (rt : Runtime) (inst : Instruction) : Outcome :=
  match fuel with
  | O => OutOfFuel
  | S f =>
      match exec_one inst rt with
      | (rt1, inl e) => Fail rt1 e
      | (rt1, inr Next) => Done rt1
      | (rt1, inr (StepIn sub)) =>
          match run_internal f rt1 sub with
          | Done rt2 => run_inst f rt2 inst
          | o => o
          end
      end
  end.

(** [Runner::with_memsize(program, input, output, memsize).run()] *)
Definition run (fuel : nat) (program : Program) (inp : list InputEvent) (out : Sink)
  (memsize : MemorySize) : Outcome :=
  run_internal fuel (Runtime_new inp out memsize) program.

End Runner.

(** The run-to-completion entry points of [runtime/mod.rs]: a private
    runtime with the same memory, whose [input] uses [read_exact], and
    a recursive [run] with a [while] loop for [UntilZero]. *)
Module Legacy.

(** [Read::read_exact] of a one-byte buffer: [read] again after an
    [Interrupted] read; [Ok(0)] is [UnexpectedEof].  The input left and
    the byte read or the error. *)
Fixpoint read_exact_byte (inp : list InputEvent) : list InputEvent * (IoErrorKind + Z) :=
  match inp with
  | [] => ([], inl UnexpectedEof)
  | InInterrupted :: rest => read_exact_byte rest
  | InFail :: rest => (rest, inl OtherIo)
  | InByte b :: rest => (rest, inr b)
  end.

(** [Runtime::input] of [runtime/mod.rs]: [read_exact] of one byte. *)
Definition input_byte : RT unit := fun rt =>
  match get_mut (memory rt) (pointer rt) with
  | inl e => (rt, inl e)
  | inr (m, l) =>
      match read_exact_byte (input rt) with
      | (rest, inl k) =>
          ({| input := rest; output := output rt; memory := m; pointer := pointer rt |},
           inl (IoError k))
      | (rest, inr b) =>
          ({| input := rest; output := output rt; memory := store m l b;
              pointer := pointer rt |}, inr tt)
      end
  end.

(** The body of the loop [while *self.memory.get_mut(self.pointer)? != 0]:
    the memory after the access and the tested value. *)
Definition test_cell (rt : Runtime) : RuntimeError + (Runtime * bool) :=
  match get_mut (memory rt) (pointer rt) with
  | inl e => inl e
  | inr (m, l) => inr (set_memory rt m, negb (load m l =? 0))
  end.

Definition unit_step (r : Runtime * (RuntimeError + unit)) : Outcome :=
  match r with
  | (rt', inl e) => Fail rt' e
  | (rt', inr _) => Done rt'
  end.

(** [Runtime::run] of [runtime/mod.rs]; [run_inst] is the body of the
    [for] loop for one instruction, the [while] loop included. *)
Fixpoint run (fuel : nat) (rt : Runtime) (program : list Instruction) : Outcome :=
  match fuel with
  | O => OutOfFuel
  | S f =>
      match program with
      | [] => Done rt
      | inst :: rest =>
          match run_inst f rt inst with
          | Done rt' => run f rt' rest
          | o => o
          end
      end
  end
with run_inst (fuel : nat) (rt : Runtime) (inst : Instruction) : Outcome :=
  match fuel with
  | O => OutOfFuel
  | S f =>
      match inst with
      | PAdd operand => unit_step (add_pointer operand rt)
      | DAdd operand => unit_step (add_data operand rt)
      | Output => unit_step (output_byte rt)
      | Input => unit_step (input_byte rt)
      | UntilZero sub =>
          match test_cell rt with
          | inl e => Fail rt e
          | inr (rt1, false) => Done rt1
          | inr (rt1, true) =>
              match run f rt1 sub with
              | Done rt2 => run_inst f rt2 inst
              | o => o
              end
          end
      end
  end.

(** [run_with_memsize] and [run] (with [DEFAULT_MEMSIZE]). *)
Definition run_with_memsize (fuel : nat) (program : Program) (inp : list InputEvent)
  (out : Sink) (memsize : MemorySize) : Outcome :=
  run fuel (Runtime_new inp out memsize) program.

Definition run_default (fuel : nat) (program : Program) (inp : list InputEvent)
  (out : Sink) : Outcome :=
  run_with_memsize fuel program inp out DEFAULT_MEMSIZE.

End Legacy.

(** The step driver of [runtime/step_runner.rs]. *)
Module StepRunner.

Record StepRunner : Type := mkStepRunner {
  program : Program;
  runtime : Runtime;
  index : option ProgramIndex
}.

(** [StepRunner::with_memsize] *)
Definition with_memsize (p : Program) (inp : list InputEvent) (out : Sink)
  (memsize : MemorySize) : StepRunner :=
  {| program := p; runtime := Runtime_new inp out memsize; index := first_index p |}.

(** [StepRunner::new] *)
Definition new (p : Program) (inp : list InputEvent) (out : Sink) : StepRunner :=
  with_memsize p inp out DEFAULT_MEMSIZE.

(** [StepRunner::is_running] *)
Definition is_running (sr : StepRunner) : bool :=
  match index sr with Some _ => true | None => false end.

(** The result of [step]: the runner after the call and [Ok(())] or
    [Err(e)]; [StepPanic] is a panic of the indexing code. *)
Inductive StepResult : Type :=
| StepOk (sr : StepRunner)
| StepErr (sr : StepRunner) (e : RuntimeError)
| StepPanic.

(** [StepRunner::step] *)
Definition step (sr : StepRunner) : StepResult :=
  match index sr with
  | None => StepOk sr
  | Some idx =>
      match instruction_at (program sr) idx with
      | None => StepPanic
      | Some inst =>
          match exec_one inst (runtime sr) with
          | (rt', inl e) =>
              StepErr {| program := program sr; runtime := rt'; index := Some idx |} e
          | (rt', inr Next) =>
              match step_index (program sr) idx with
              | None => StepPanic
              | Some (true, idx') =>
                  StepOk {| program := program sr; runtime := rt'; index := Some idx' |}
              | Some (false, idx') =>
                  let (idx'', more) := step_out idx' in
                  if more
                  then StepOk {| program := program sr; runtime := rt'; index := Some idx'' |}
                  else StepOk {| program := program sr; runtime := rt'; index := None |}
              end
          | (rt', inr (StepIn sub)) =>
              match sub with
              | [] => StepOk {| program := program sr; runtime := rt'; index := Some idx |}
              | _ :: _ =>
                  StepOk {| program := program sr; runtime := rt';
                            index := Some (step_in idx) |}
              end
          end
      end
  end.

(** [n] successive calls to [step], stopping at the first error. *)
Fixpoint steps (n : nat) (sr : StepRunner) : StepResult :=
  match n with
  | O => StepOk sr
  | S n' =>
      match step sr with
      | StepOk sr' => steps n' sr'
      | r => r
      end
  end.

End StepRunner.

(* ------------------------------------------------------------------ *)
(** ** Tokens ([token/mod.rs]) *)

Module Token.
Inductive TokenType : Type :=
| PInc | PDec | DInc | DDec | Output | Input | LoopHead | LoopTail.

Definition TokenType_eqb (a b : TokenType) : bool :=
  match a, b with
  | PInc, PInc | PDec, PDec | DInc, DInc | DDec, DDec | Output, Output
  | Input, Input | LoopHead, LoopHead | LoopTail, LoopTail => true
  | _, _ => false
  end.
End Token.
Import Token (TokenType, TokenType_eqb, PInc, PDec, DInc, DDec, LoopHead, LoopTail).

(** A Rust [str] as the sequence of its Unicode scalar values; its
    length in bytes is that of its UTF-8 encoding. *)
Definition Str : Type := list Z.

Definition char_len_utf8 (c : Z) : nat :=
  if c <? 128 then 1 else if c <? 2048 then 2 else if c <? 65536 then 3 else 4.

(** [str::len], in bytes. *)
Definition str_len (s : Str) : nat := fold_right (fun c n => (char_len_utf8 c + n)%nat) O s.

Record TokenRec : Type := mkToken {
  token_type : TokenType;
  token_str : Str
}.

(** [TokenInfo]: [token = None] is the end of the stream. *)
Record TokenInfo : Type := mkTokenInfo {
  token : option TokenRec;
  pos_in_chars : nat
}.

(** [TokenInfo::token_type] *)
Definition info_token_type (info : TokenInfo) : option TokenType :=
  option_map token_type (token info).

Definition opt_type_eqb (a : option TokenType) (b : TokenType) : bool :=
  match a with Some a' => TokenType_eqb a' b | None => false end.

Inductive ParseError : Type :=
| UnexpectedEndOfFile (pos : nat)
| UnexpectedEndOfLoop (pos : nat)
| MiscError (pos : nat) (message : string).

(** The [TokenStream] trait: [next(&mut self)]. *)
Class TokenStream (S : Type) := next : S -> S * (ParseError + TokenInfo).

(** A stream replaying a fixed list of results, then the end of the
    stream at [last_pos_in_chars] forever (the [TestStream] of the
    parser's tests). *)
Record ListStream : Type := mkListStream {
  items : list (ParseError + TokenInfo);
  last_pos_in_chars : nat
}.

#[export] Instance ListStream_TokenStream : TokenStream ListStream :=
  fun s =>
    match items s with
    | [] => (s, inr {| token := None; pos_in_chars := last_pos_in_chars s |})
    | r :: rest => ({| items := rest; last_pos_in_chars := last_pos_in_chars s |}, r)
    end.

(* ------------------------------------------------------------------ *)
(** ** The simple tokenizer ([token/simple/mod.rs]) *)

Module Simple.

(** [SimpleTokenSpec], with every symbol already turned into a string
    by [to_string]. *)
Record SimpleTokenSpec : Type := mkSpec {
  ptr_inc : Str;
  ptr_dec : Str;
  data_inc : Str;
  data_dec : Str;
  output : Str;
  input : Str;
  loop_head : Str;
  loop_tail : Str
}.

Record SimpleTokenDef : Type := mkDef {
  def_token : Str;
  char_count : nat;
  def_token_type : TokenType
}.

(** [SimpleTokenDef::new]: [char_count] is [token.chars().count()]. *)
Definition SimpleTokenDef_new (token : Str) (token_type : TokenType) : SimpleTokenDef :=
  {| def_token := token; char_count := List.length token; def_token_type := token_type |}.

Definition usize_MAX : Z := 2 ^ 64 - 1.

(** The key of [sort_by_key(|def| usize::MAX - def.char_count)]. *)
Definition sort_key (d : SimpleTokenDef) : Z := usize_MAX - Z.of_nat (char_count d).

(** [slice::sort_by_key] is a stable sort; a stable sort's result is
    determined by the keys, so it is written here as a stable insertion
    sort: each element goes after every element already placed whose
    key is not greater. *)
Fixpoint insert_by_key (d : SimpleTokenDef) (l : list SimpleTokenDef) : list SimpleTokenDef :=
  match l with
  | [] => [d]
  | x :: r => if sort_key x <=? sort_key d then x :: insert_by_key d r else d :: l
  end.

Definition sort_by_key (l : list SimpleTokenDef) : list SimpleTokenDef :=
  fold_left (fun acc d => insert_by_key d acc) l [].

Record SimpleTokenizer : Type := mkTokenizer { token_table : list SimpleTokenDef }.

(** [SimpleTokenSpec::to_tokenizer] *)
Definition to_tokenizer (spec : SimpleTokenSpec) : SimpleTokenizer :=
  {| token_table := sort_by_key [
       SimpleTokenDef_new (ptr_inc spec) PInc;
       SimpleTokenDef_new (ptr_dec spec) PDec;
       SimpleTokenDef_new (data_inc spec) DInc;
       SimpleTokenDef_new (data_dec spec) DDec;
       SimpleTokenDef_new (output spec) Token.Output;
       SimpleTokenDef_new (input spec) Token.Input;
       SimpleTokenDef_new (loop_head spec) LoopHead;
       SimpleTokenDef_new (loop_tail spec) LoopTail] |}.

(** [str::starts_with] on strings (a byte prefix of UTF-8 text at a
    char boundary is a prefix of its scalar values). *)
Fixpoint starts_with (s p : Str) : bool :=
  match p, s with
  | [], _ => true
  | x :: p', y :: s' => (x =? y) && starts_with s' p'
  | _ :: _, [] => false
  end.

(** [find_token_at], given [src_head = &source[pos..]]. *)
Definition find_token_at (src_head : Str) (table : list SimpleTokenDef) : option SimpleTokenDef :=
  find (fun def => starts_with src_head (def_token def)) table.

(** [&s[n..]]: [None] where Rust panics ([n] off a char boundary or past
    the end). *)
Fixpoint str_from (s : Str) (n : nat) : option Str :=
  match n, s with
  | O, _ => Some s
  | S _, [] => None
  | S _, c :: s' => if Nat.leb (char_len_utf8 c) n then str_from s' (n - char_len_utf8 c) else None
  end.

(** [&s[..n]] *)
Fixpoint str_upto (s : Str) (n : nat) : Str :=
  match n, s with
  | O, _ => []
  | S _, [] => []
  | S _, c :: s' => c :: str_upto s' (n - char_len_utf8 c)
  end.

(** [SimpleTokenStream]; the table is the tokenizer's. *)
Record SimpleTokenStream : Type := mkStream {
  stream_table : list SimpleTokenDef;
  source : Str;
  pos : nat;
  stream_pos_in_chars : nat
}.

(** [Tokenizer::token_stream] / [SimpleTokenStream::new] *)
Definition token_stream_of (t : SimpleTokenizer) (src : Str) : SimpleTokenStream :=
  {| stream_table := token_table t; source := src; pos := 0; stream_pos_in_chars := 0 |}.

(** The [for (rel_pos, _) in self.source[self.pos..].char_indices()]
    loop: the first definition found, its byte and char offsets, and the
    text from there on. *)
Fixpoint scan (table : list SimpleTokenDef) (head : Str) (rel_pos rel_pos_in_chars : nat)
  : option (SimpleTokenDef * nat * nat * Str) :=
  match head with
  | [] => None
  | c :: rest =>
      match find_token_at head table with
      | Some def => Some (def, rel_pos, rel_pos_in_chars, head)
      | None => scan table rest (rel_pos + char_len_utf8 c) (S rel_pos_in_chars)
      end
  end.

(** [SimpleTokenStream::next].  [self.pos] always stays on a char
    boundary (it is only ever set past a whole token or to the end), so
    the slice [self.source[self.pos..]] does not panic; the [None] case
    below is unreachable and read as the empty text. *)
Definition stream_next (st : SimpleTokenStream) : SimpleTokenStream * (ParseError + TokenInfo) :=
  let head := match str_from (source st) (pos st) with Some h => h | None => [] end in
  match scan (stream_table st) head 0 0 with
  | Some (def, rel_pos, rel_pos_in_chars, at_head) =>
      let p := (pos st + rel_pos)%nat in
      let info := {| token := Some {| token_type := def_token_type def;
                                      token_str := str_upto at_head (str_len (def_token def)) |};
                     pos_in_chars := stream_pos_in_chars st + rel_pos_in_chars |} in
      ({| stream_table := stream_table st; source := source st;
          pos := p + str_len (def_token def);
          stream_pos_in_chars := stream_pos_in_chars st + rel_pos_in_chars + char_count def |},
       inr info)
  | None =>
      let n := (stream_pos_in_chars st + List.length head)%nat in
      ({| stream_table := stream_table st; source := source st;
          pos := str_len (source st); stream_pos_in_chars := n |},
       inr {| token := None; pos_in_chars := n |})
  end.

#[global] Instance SimpleTokenStream_TokenStream : TokenStream SimpleTokenStream := stream_next.

End Simple.

(** A token read at a character position, as the parser's tests build
    them. *)
Definition sample_token (ty : TokenType) (str : Str) (pos : nat) : TokenInfo :=
  {| token := Some {| token_type := ty; token_str := str |}; pos_in_chars := pos |}.

(* ------------------------------------------------------------------ *)
(** ** Annotated programs ([program/mod.rs]) *)

Inductive FatInstruction : Type :=
| mkFat (kind : FatInstructionKind) (tokens : list TokenInfo)
with FatInstructionKind : Type :=
| FPAdd (operand : Z)
| FDAdd (operand : Z)
| FOutput
| FInput
| FUntilZero (sub : list FatInstruction)
| FNop.

Definition fat_kind (i : FatInstruction) : FatInstructionKind :=
  match i with mkFat k _ => k end.

Definition fat_tokens (i : FatInstruction) : list TokenInfo :=
  match i with mkFat _ t => t end.

(** [FatInstructionKind::as_instruction], with
    [fat_instructions_to_instructins] (a [filter_map]) inlined for the
    loop body. *)
Fixpoint kind_as_instruction (k : FatInstructionKind) : option Instruction :=
  match k with
  | FPAdd n => Some (PAdd n)
  | FDAdd n => Some (DAdd n)
  | FOutput => Some Output
  | FInput => Some Input
  | FUntilZero insts =>
      Some (UntilZero
        ((fix go (l : list FatInstruction) : list Instruction :=
            match l with
            | [] => []
            | mkFat k' _ :: rest =>
                match kind_as_instruction k' with
                | Some i => i :: go rest
                | None => go rest
                end
            end) insts))
  | FNop => None
  end.

(** [fat_instructions_to_instructins] *)
Fixpoint fat_instructions_to_instructins (l : list FatInstruction) : list Instruction :=
  match l with
  | [] => []
  | inst :: rest =>
      match kind_as_instruction (fat_kind inst) with
      | Some i => i :: fat_instructions_to_instructins rest
      | None => fat_instructions_to_instructins rest
      end
  end.

(** [FatProgram::as_program] *)
Definition as_program (fp : list FatInstruction) : Program :=
  fat_instructions_to_instructins fp.

(* ------------------------------------------------------------------ *)
(** ** The parser ([parser/mod.rs]) *)

(** The outcome of a parsing function: the context afterwards and a
    value, a parse error, a panic (a failed assertion), or the model's
    fuel bound reached. *)
Inductive PResult (C A : Type) : Type :=
| POk (ctx : C) (a : A)
| PErr (e : ParseError)
| PPanic
| PFuel.
Arguments POk {C A}.
Arguments PErr {C A}.
Arguments PPanic {C A}.
Arguments PFuel {C A}.

Section Parser.
Context {St : Type} `{TokenStream St}.

Record ParseContext : Type := mkCtx {
  token_stream : St;
  unget_buf : option TokenInfo
}.

(** [ParseContext::new] *)
Definition ctx_new (s : St) : ParseContext := {| token_stream := s; unget_buf := None |}.

(** [ParseContext::next_token_info] *)
Definition next_token_info (ctx : ParseContext) : ParseContext * (ParseError + TokenInfo) :=
  match unget_buf ctx with
  | Some def => ({| token_stream := token_stream ctx; unget_buf := None |}, inr def)
  | None =>
      let (s', r) := next (token_stream ctx) in
      ({| token_stream := s'; unget_buf := None |}, r)
  end.

(** [ParseContext::unget_token_info]; [None] is the failed
    [assert!(self.unget_buf.is_none())]. *)
Definition unget_token_info (ctx : ParseContext) (info : TokenInfo) : option ParseContext :=
  match unget_buf ctx with
  | None => Some {| token_stream := token_stream ctx; unget_buf := Some info |}
  | Some _ => None
  end.

Definition pbind {A B} (r : PResult ParseContext A)
  (k : ParseContext -> A -> PResult ParseContext B) : PResult ParseContext B :=
  match r with
  | POk ctx a => k ctx a
  | PErr e => PErr e
  | PPanic => PPanic
  | PFuel => PFuel
  end.

(** The [loop] of [push_xadd]: the final operand. *)
Fixpoint xadd_loop (fuel : nat) (ctx : ParseContext) (operand : Z)
  (inc dec : TokenType) : PResult ParseContext Z :=
  match fuel with
  | O => PFuel
  | S f =>
      match next_token_info ctx with
      | (_, inl e) => PErr e
      | (ctx1, inr info) =>
          if opt_type_eqb (info_token_type info) inc then xadd_loop f ctx1 (operand + 1) inc dec
          else if opt_type_eqb (info_token_type info) dec then xadd_loop f ctx1 (operand - 1) inc dec
          else match unget_token_info ctx1 info with
               | None => PPanic
               | Some ctx2 => POk ctx2 operand
               end
      end
  end.

(** [Parser::push_xadd] *)
Definition push_xadd (fuel : nat) (ctx : ParseContext) (instructions : list Instruction)
  (initial_operand : Z) (inc dec : TokenType) (gen : Z -> Instruction)
  : PResult ParseContext (list Instruction) :=
  pbind (xadd_loop fuel ctx initial_operand inc dec) (fun ctx' operand =>
    POk ctx' (if negb (operand =? 0) then instructions ++ [gen operand] else instructions)).

(** [Parser::parse_internal]: the [loop] with the instructions gathered
    so far in [acc]. *)
Fixpoint parse_loop (fuel : nat) (ctx : ParseContext) (top_level : bool)
  (acc : list Instruction) : PResult ParseContext (list Instruction) :=
  match fuel with
  | O => PFuel
  | S f =>
      match next_token_info ctx with
      | (_, inl e) => PErr e
      | (ctx1, inr info) =>
          match info_token_type info with
          | Some PInc => pbind (push_xadd f ctx1 acc 1 PInc PDec PAdd)
                           (fun c a => parse_loop f c top_level a)
          | Some PDec => pbind (push_xadd f ctx1 acc (-1) PInc PDec PAdd)
                           (fun c a => parse_loop f c top_level a)
          | Some DInc => pbind (push_xadd f ctx1 acc 1 DInc DDec DAdd)
                           (fun c a => parse_loop f c top_level a)
          | Some DDec => pbind (push_xadd f ctx1 acc (-1) DInc DDec DAdd)
                           (fun c a => parse_loop f c top_level a)
          | Some Token.Output => parse_loop f ctx1 top_level (acc ++ [Output])
          | Some Token.Input => parse_loop f ctx1 top_level (acc ++ [Input])
          | Some LoopHead =>
              pbind (parse_loop f ctx1 false [])
                (fun c sub => parse_loop f c top_level (acc ++ [UntilZero sub]))
          | Some LoopTail =>
              if top_level then PErr (UnexpectedEndOfLoop (pos_in_chars info))
              else POk ctx1 acc
          | None =>
              if top_level then POk ctx1 acc
              else PErr (UnexpectedEndOfFile (pos_in_chars info))
          end
      end
  end.

(** [Parser::parse_str] on the token stream of the source. *)
Definition parse_str (fuel : nat) (s : St) : PResult ParseContext Program :=
  parse_loop fuel (ctx_new s) true [].

(** The [loop] of [push_xadd_fat]: the final operand and the tokens. *)
Fixpoint xadd_loop_fat (fuel : nat) (ctx : ParseContext) (operand : Z)
  (tokens : list TokenInfo) (inc dec : TokenType)
  : PResult ParseContext (Z * list TokenInfo) :=
  match fuel with
  | O => PFuel
  | S f =>
      match next_token_info ctx with
      | (_, inl e) => PErr e
      | (ctx1, inr info) =>
          if opt_type_eqb (info_token_type info) inc
          then xadd_loop_fat f ctx1 (operand + 1) (tokens ++ [info]) inc dec
          else if opt_type_eqb (info_token_type info) dec
          then xadd_loop_fat f ctx1 (operand - 1) (tokens ++ [info]) inc dec
          else match unget_token_info ctx1 info with
               | None => PPanic
               | Some ctx2 => POk ctx2 (operand, tokens)
               end
      end
  end.

(** [Parser::push_xadd_fat] *)
Definition push_xadd_fat (fuel : nat) (ctx : ParseContext)
  (instructions : list FatInstruction) (initial_token : TokenInfo)
  (initial_operand : Z) (inc dec : TokenType) (gen : Z -> FatInstructionKind)
  : PResult ParseContext (list FatInstruction) :=
  pbind (xadd_loop_fat fuel ctx initial_operand [initial_token] inc dec)
    (fun ctx' '(operand, tokens) =>
       let kind := if operand =? 0 then FNop else gen operand in
       POk ctx' (instructions ++ [mkFat kind tokens])).

(** [Parser::parse_internal_fat]; the value is [ParsedFatValue]
    (instructions and last token). *)
Fixpoint parse_loop_fat (fuel : nat) (ctx : ParseContext) (top_level : bool)
  (acc : list FatInstruction)
  : PResult ParseContext (list FatInstruction * option TokenInfo) :=
  match fuel with
  | O => PFuel
  | S f =>
      match next_token_info ctx with
      | (_, inl e) => PErr e
      | (ctx1, inr info) =>
          match info_token_type info with
          | Some PInc => pbind (push_xadd_fat f ctx1 acc info 1 PInc PDec FPAdd)
                           (fun c a => parse_loop_fat f c top_level a)
          | Some PDec => pbind (push_xadd_fat f ctx1 acc info (-1) PInc PDec FPAdd)
                           (fun c a => parse_loop_fat f c top_level a)
          | Some DInc => pbind (push_xadd_fat f ctx1 acc info 1 DInc DDec FDAdd)
                           (fun c a => parse_loop_fat f c top_level a)
          | Some DDec => pbind (push_xadd_fat f ctx1 acc info (-1) DInc DDec FDAdd)
                           (fun c a => parse_loop_fat f c top_level a)
          | Some Token.Output =>
              parse_loop_fat f ctx1 top_level (acc ++ [mkFat FOutput [info]])
          | Some Token.Input =>
              parse_loop_fat f ctx1 top_level (acc ++ [mkFat FInput [info]])
          | Some LoopHead =>
              pbind (parse_loop_fat f ctx1 false [])
                (fun c '(sub, last_token) =>
                   match last_token with
                   | Some last =>
                       let tokens := [info] ++ flat_map fat_tokens sub ++ [last] in
                       parse_loop_fat f c top_level (acc ++ [mkFat (FUntilZero sub) tokens])
                   | None => PPanic (* unreachable!("last token must be present") *)
                   end)
          | Some LoopTail =>
              if top_level then PErr (UnexpectedEndOfLoop (pos_in_chars info))
              else POk ctx1 (acc, Some info)
          | None =>
              if top_level then POk ctx1 (acc, None)
              else PErr (UnexpectedEndOfFile (pos_in_chars info))
          end
      end
  end.

(** [Parser::parse_str_fat] *)
Definition parse_str_fat (fuel : nat) (s : St) : PResult ParseContext (list FatInstruction) :=
  pbind (parse_loop_fat fuel (ctx_new s) true [])
    (fun c '(instructions, last_token) =>
       match last_token with
       | None => POk c instructions
       | Some _ => PPanic (* assert!(last_token.is_none()) *)
       end).

End Parser.

(* ------------------------------------------------------------------ *)
(** ** Parser specification helpers *)

(** The two axes of folding: pointer ([PInc]/[PDec] into [PAdd]) and
    data ([DInc]/[DDec] into [DAdd]). *)
Inductive Axis : Type := PointerAxis | DataAxis.

Definition axis_inc (ax : Axis) : TokenType :=
  match ax with PointerAxis => PInc | DataAxis => DInc end.
Definition axis_dec (ax : Axis) : TokenType :=
  match ax with PointerAxis => PDec | DataAxis => DDec end.
Definition axis_gen (ax : Axis) : Z -> Instruction :=
  match ax with PointerAxis => PAdd | DataAxis => DAdd end.
Definition axis_fgen (ax : Axis) : Z -> FatInstructionKind :=
  match ax with PointerAxis => FPAdd | DataAxis => FDAdd end.

Definition on_axis (ax : Axis) (info : TokenInfo) : bool :=
  opt_type_eqb (info_token_type info) (axis_inc ax) ||
  opt_type_eqb (info_token_type info) (axis_dec ax).

(** The algebraic sum of the +1/-1 contributions of a run. *)
Definition run_sum (ax : Axis) (run : list TokenInfo) : Z :=
  fold_right (fun info acc =>
    (if opt_type_eqb (info_token_type info) (axis_inc ax) then 1 else -1) + acc) 0 run.

(** Lock-step relations between the annotated and the plain parser. *)
Definition xadd_rel {C} (r1 : PResult C (Z * list TokenInfo)) (r2 : PResult C Z) : Prop :=
  match r1, r2 with
  | POk c1 (o1, _), POk c2 o2 => c1 = c2 /\ o1 = o2
  | PErr e1, PErr e2 => e1 = e2
  | PPanic, PPanic | PFuel, PFuel => True
  | _, _ => False
  end.

Definition parse_rel {C} (top : bool)
  (r1 : PResult C (list FatInstruction * option TokenInfo))
  (r2 : PResult C (list Instruction)) : Prop :=
  match r1, r2 with
  | POk c1 (insts, last), POk c2 p =>
      c1 = c2 /\ as_program insts = p /\ (if top then last = None else last <> None)
  | PErr e1, PErr e2 => e1 = e2
  | PPanic, PPanic | PFuel, PFuel => True
  | _, _ => False
  end.

(** Every [PAdd]/[DAdd] of an instruction tree has a non-zero delta. *)
Fixpoint inst_nonzero (i : Instruction) : bool :=
  match i with
  | PAdd n | DAdd n => negb (n =? 0)
  | UntilZero sub =>
      (fix go (l : list Instruction) : bool :=
         match l with [] => true | x :: r => inst_nonzero x && go r end) sub
  | _ => true
  end.

Definition all_nonzero (l : list Instruction) : bool := forallb inst_nonzero l.

Section StreamSeq.
Context {St : Type} `{TokenStream St}.

(** [yields s l s']: successive [next] calls on [s] return the tokens
    [l], ending in the stream state [s']. *)
Fixpoint yields (s : St) (l : list TokenInfo) (s' : St) : Prop :=
  match l with
  | [] => s' = s
  | x :: l' => exists s1, next s = (s1, inr x) /\ yields s1 l' s'
  end.

(** The same, starting from a parse context (the pushed-back token
    first). *)
Definition ctx_yields (ctx : ParseContext) (l : list TokenInfo) (s' : St) : Prop :=
  match unget_buf ctx with
  | Some x => exists l', l = x :: l' /\ yields (token_stream ctx) l' s'
  | None => yields (token_stream ctx) l s'
  end.

End StreamSeq.

(* ------------------------------------------------------------------ *)
(** ** Observations on runs *)

Definition outcome_error (o : Outcome) : option RuntimeError :=
  match o with Fail _ e => Some e | _ => None end.

Definition outcome_output (o : Outcome) : option (list Z) :=
  match o with Done rt => Some (written (output rt)) | _ => None end.

(** Well-formedness of a memory: a [Fixed(n)] memory holds exactly [n]
    cells to the right. *)
Definition mem_wf (m : Memory) : Prop :=
  match size m with
  | Fixed n => length (right_data m) = n
  | _ => True
  end.

(* ------------------------------------------------------------------ *)
(** ** Accessors of the drivers ([runtime/internal.rs],
    [runtime/step_runner.rs]) *)

(** [Runtime::get_data_at_mut]: [self.memory.get_mut(address).ok()].
    The runtime afterwards (its memory may have grown) and the location
    of the cell, [None] when the access is refused. *)
Definition Runtime_get_data_at_mut (rt : Runtime) (address : Z) : Runtime * option Loc :=
  match get_mut (memory rt) address with
  | inl _ => (rt, None)
  | inr (m, l) => (set_memory rt m, Some l)
  end.

(** The byte read through [Runtime::get_data_at_mut(address)], [None] when the
    access is refused. *)
Definition data_at (rt : Runtime) (address : Z) : option Z :=
  let (rt', l) := Runtime_get_data_at_mut rt address in option_map (load (memory rt')) l.

Module StepRunnerAccess.
Import StepRunner.

(** [StepRunner::get_data_at_mut] *)
Definition get_data_at_mut (sr : StepRunner) (address : Z) : StepRunner * option Loc :=
  let (rt', l) := Runtime_get_data_at_mut (runtime sr) address in
  ({| program := program sr; runtime := rt'; index := index sr |}, l).

(** [StepRunner::get_current_instruction]:
    [self.index.as_ref().map(|i| &self.program[i])].  The outer [None]
    is a panic of the indexing; [Some None] is a finished runner. *)
Definition get_current_instruction (sr : StepRunner) : option (option Instruction) :=
  match index sr with
  | None => Some None
  | Some i =>
      match instruction_at (program sr) i with
      | None => None
      | Some inst => Some (Some inst)
      end
  end.

End StepRunnerAccess.

(* ------------------------------------------------------------------ *)
(** ** The Ook! tokenizer ([predefined/ook.rs]) *)

Module Ook.

Inductive OokTokenType : Type :=
| Dot          (* Ook. *)
| Question     (* Ook? *)
| Exclamation. (* Ook! *)

Record OokTokenInfo : Type := mkOokTokenInfo {
  ook_token_type : option OokTokenType;
  ook_pos : nat;
  ook_pos_in_chars : nat
}.

(** [OokTokenStream] *)
Record OokTokenStream : Type := mkOokStream {
  source : Str;
  pos : nat;
  stream_pos_in_chars : nat
}.

(** [COMMON_TOKEN_PART = "Ook"] *)
Definition COMMON_TOKEN_PART : Str := [79; 111; 107].

(** [OokTokenStream::new] / [OokTokenizer::token_stream] *)
Definition new (src : Str) : OokTokenStream :=
  {| source := src; pos := 0; stream_pos_in_chars := 0 |}.

(** [str::strip_prefix] *)
Fixpoint strip_prefix (s p : Str) : option Str :=
  match p, s with
  | [], _ => Some s
  | x :: p', y :: s' => if x =? y then strip_prefix s' p' else None
  | _ :: _, [] => None
  end.

(** The [match s.chars().next()] after the prefix (['.'], ['?'], ['!']). *)
Definition mark_type (s : Str) : option OokTokenType :=
  match s with
  | c :: _ =>
      if c =? 46 then Some Dot
      else if c =? 63 then Some Question
      else if c =? 33 then Some Exclamation
      else None
  | [] => None
  end.

(** The [for (rel_pos, _) in self.source[self.pos..].char_indices()]
    loop of [next_ook_token]: the token type with its byte and char
    offsets, or (the loop ran out) the final [rel_pos_in_chars]. *)
Fixpoint ook_scan (head : Str) (rel_pos rel_pos_in_chars : nat)
  : (OokTokenType * nat * nat) + nat :=
  match head with
  | [] => inr rel_pos_in_chars
  | c :: rest =>
      let found := match strip_prefix head COMMON_TOKEN_PART with
                   | Some s => mark_type s
                   | None => None
                   end in
      match found with
      | Some ty => inl (ty, rel_pos, rel_pos_in_chars)
      | None => ook_scan rest (rel_pos + char_len_utf8 c) (S rel_pos_in_chars)
      end
  end.

(** [OokTokenStream::next_ook_token].  As in the simple tokenizer,
    [self.pos] stays on a char boundary (it moves past ["Ook"] and one
    ASCII mark, or to the end), so the [None] case of the slice is
    unreachable and read as the empty text. *)
Definition next_ook_token (st : OokTokenStream) : OokTokenStream * OokTokenInfo :=
  let head := match Simple.str_from (source st) (pos st) with Some h => h | None => [] end in
  match ook_scan head 0 0 with
  | inl (ty, rel_pos, rel_pos_in_chars) =>
      ({| source := source st;
          pos := pos st + rel_pos + str_len COMMON_TOKEN_PART + 1;
          stream_pos_in_chars :=
            stream_pos_in_chars st + rel_pos_in_chars + str_len COMMON_TOKEN_PART + 1 |},
       {| ook_token_type := Some ty; ook_pos := pos st + rel_pos;
          ook_pos_in_chars := stream_pos_in_chars st + rel_pos_in_chars |})
  | inr rel_pos_in_chars =>
      let st' := {| source := source st; pos := str_len (source st);
                    stream_pos_in_chars := stream_pos_in_chars st + rel_pos_in_chars |} in
      (st', {| ook_token_type := None; ook_pos := pos st';
               ook_pos_in_chars := stream_pos_in_chars st' |})
  end%nat.

(** [&s[a..b]]; the slices taken by [next] are on char boundaries. *)
Definition str_slice (s : Str) (a b : nat) : Str :=
  match Simple.str_from s a with Some t => Simple.str_upto t (b - a) | None => [] end.

(** The [match (first_token_type, second_token_type)] of [next];
    [None] is the [(Question, Question)] arm. *)
Definition pair_token_type (t1 t2 : OokTokenType) : option TokenType :=
  match t1, t2 with
  | Dot, Question => Some PInc
  | Question, Dot => Some PDec
  | Dot, Dot => Some DInc
  | Exclamation, Exclamation => Some DDec
  | Exclamation, Dot => Some Token.Output
  | Dot, Exclamation => Some Token.Input
  | Exclamation, Question => Some LoopHead
  | Question, Exclamation => Some LoopTail
  | Question, Question => None
  end.

(** [<OokTokenStream as TokenStream>::next] *)
Definition ook_next (st : OokTokenStream) : OokTokenStream * (ParseError + TokenInfo) :=
  let (st1, first) := next_ook_token st in
  match ook_token_type first with
  | None => (st1, inr {| token := None; pos_in_chars := ook_pos_in_chars first |})
  | Some t1 =>
      let (st2, second) := next_ook_token st1 in
      match ook_token_type second with
      | None => (st2, inl (MiscError (ook_pos_in_chars second) "Odd number of Ook tokens"))
      | Some t2 =>
          match pair_token_type t1 t2 with
          | None => (st2, inl (MiscError (ook_pos_in_chars first) "Ook? Ook?: bad Ook sequence"))
          | Some ty =>
              (st2, inr {| token := Some {| token_type := ty;
                                            token_str := str_slice (source st2) (ook_pos first)
                                              (ook_pos second + str_len COMMON_TOKEN_PART + 1) |};
                           pos_in_chars := ook_pos_in_chars first |})
          end
      end
  end.

#[global] Instance OokTokenStream_TokenStream : TokenStream OokTokenStream := ook_next.

End Ook.

(* ================================================================== *)
(** * Proofs *)

(* ------------------------------------------------------------------ *)
(** ** Program indices *)

(** The instruction sequence an index prefix [q] descends into: the
    program itself for [[]], the body of the loop at [q] otherwise. *)
Fixpoint body_at (instructions : list Instruction) (q : list nat)
  : option (list Instruction) :=
  match q with
  | [] => Some instructions
  | h :: t =>
      match nth_error instructions h with
      | Some (UntilZero sub) => body_at sub t
      | _ => None
      end
  end.

(** Where the step driver goes when the sequence at [q] is finished:
    back to the loop at [q], or nowhere at top level. *)
Definition exit_of (q : list nat) : option ProgramIndex :=
  match q with [] => None | _ => Some q end.

(** Where the step driver goes after a [Next] at [q ++ [i]]. *)
Definition next_pos (q : list nat) (full : list Instruction) (i : nat)
  : option ProgramIndex :=
  if (S i <? length full)%nat then Some (q ++ [S i]) else exit_of q.

Lemma app_snoc_not_nil {A} (l : list A) (x : A) :
  exists y r, l ++ [x] = y :: r.
Proof. destruct l; simpl; eauto. Qed.

Lemma instruction_at_snoc : forall q insts full i,
  body_at insts q = Some full ->
  instruction_at insts (q ++ [i]) = nth_error full i.
Proof.
  induction q as [|h t IH]; intros insts full i Hb; simpl in *.
  - inversion Hb; subst. destruct (nth_error full i); reflexivity.
  - destruct (nth_error insts h) as [[| | | |sub]|] eqn:E; try discriminate.
    destruct (app_snoc_not_nil t i) as (y & r & Hyr). rewrite Hyr.
    rewrite <- Hyr. apply IH; assumption.
Qed.

Lemma step_index_snoc : forall q insts full i,
  body_at insts q = Some full ->
  next_index_internal insts (q ++ [i]) =
  if (S i <? length full)%nat then Some (true, q ++ [S i]) else Some (false, q ++ [i]).
Proof.
  induction q as [|h t IH]; intros insts full i Hb; simpl in *.
  - inversion Hb; subst. reflexivity.
  - destruct (nth_error insts h) as [[| | | |sub]|] eqn:E; try discriminate.
    destruct (app_snoc_not_nil t i) as (y & r & Hyr). rewrite Hyr.
    rewrite <- Hyr. rewrite (IH sub full i Hb).
    destruct (S i <? length full)%nat; reflexivity.
Qed.

Lemma step_out_snoc : forall q (i : nat),
  step_out (q ++ [i]) = (q, match q with [] => false | _ => true end).
Proof. intros q i. unfold step_out. rewrite removelast_last. reflexivity. Qed.

Lemma body_at_snoc : forall q insts full i sub,
  body_at insts q = Some full ->
  nth_error full i = Some (UntilZero sub) ->
  body_at insts (q ++ [i]) = Some sub.
Proof.
  induction q as [|h t IH]; intros insts full i sub Hb Hn; simpl in *.
  - inversion Hb; subst. rewrite Hn. reflexivity.
  - destruct (nth_error insts h) as [[| | | |sub']|]; try discriminate.
    eapply IH; eassumption.
Qed.



(* ------------------------------------------------------------------ *)
(** ** Shapes of [exec_one] *)

Lemma exec_one_stepin : forall inst rt rt' sub,
  exec_one inst rt = (rt', inr (StepIn sub)) -> inst = UntilZero sub.
Proof.
  intros inst rt rt' sub H. destruct inst; simpl in H.
  - inversion H.
  - unfold add_data in H. destruct (get_mut _ _) as [e|[m l]]; inversion H.
  - unfold output_byte in H. destruct (get_mut _ _) as [e|[m l]]; try discriminate.
    destruct (write_byte _ _); discriminate.
  - unfold input_byte in H. destruct (get_mut _ _) as [e|[m l]]; try discriminate.
    destruct (input rt) as [|[b| |] rest]; discriminate.
  - destruct (get_mut _ _) as [e|[m l]]; try discriminate.
    destruct (negb _); inversion H; reflexivity.
Qed.

(* ------------------------------------------------------------------ *)
(** ** Fuel monotonicity of the run-to-completion driver *)




Lemma run_internal_nil : forall f rt rt',
  Runner.run_internal f rt [] = Done rt' -> rt' = rt /\ (1 <= f)%nat.
Proof. intros [|f] rt rt' H; simpl in H; inversion H; split; auto; lia. Qed.


(** Effects on the streams: output is only appended to, input only
    consumed from the front. *)
Definition streams_extend (rt rt' : Runtime) : Prop :=
  (exists sfx, written (output rt') = written (output rt) ++ sfx) /\
  (exists pre, input rt = pre ++ input rt').

Lemma streams_extend_refl : forall rt, streams_extend rt rt.
Proof. intros rt. split; [exists []; rewrite app_nil_r|exists []]; reflexivity. Qed.

Lemma streams_extend_trans : forall a b c,
  streams_extend a b -> streams_extend b c -> streams_extend a c.
Proof.
  intros a b c [[s1 H1] [p1 H2]] [[s2 H3] [p2 H4]]. split.
  - exists (s1 ++ s2). rewrite H3, H1, app_assoc. reflexivity.
  - exists (p1 ++ p2). rewrite H2, H4, app_assoc. reflexivity.
Qed.

Lemma streams_extend_set_memory : forall rt m, streams_extend rt (set_memory rt m).
Proof. intros. split; [exists []; rewrite app_nil_r|exists []]; reflexivity. Qed.

Ltac same_streams :=
  split; [exists []; rewrite app_nil_r; reflexivity|exists []; reflexivity].

Lemma exec_one_streams : forall inst rt rt' r,
  exec_one inst rt = (rt', r) -> streams_extend rt rt'.
Proof.
  intros inst rt rt' r H.
  destruct inst as [o|o| | |sub]; cbn [exec_one] in H.
  - inversion H; subst. same_streams.
  - unfold add_data in H. destruct (get_mut _ _) as [e|[m l]]; inversion H; subst;
      same_streams.
  - unfold output_byte in H. destruct (get_mut _ _) as [e|[m l]];
      [inversion H; subst; same_streams|].
    unfold write_byte in H.
    destruct (room (output rt)) as [[|n]|]; inversion H; subst;
      try same_streams;
      (split; [exists [load m l]; reflexivity|exists []; reflexivity]).
  - unfold input_byte in H. destruct (get_mut _ _) as [e|[m l]];
      [inversion H; subst; same_streams|].
    destruct (input rt) as [|x rest] eqn:Ei; [inversion H; subst; same_streams|].
    assert (H' : exists rt2 r2, (rt', r) = (rt2, r2) /\ input rt2 = rest /\ output rt2 = output rt)
      by (destruct x; inversion H; subst; eauto).
    clear H. destruct H' as (rt2 & r2 & Heq & Hi & Ho). inversion Heq; subst.
    split; [exists []; rewrite Ho, app_nil_r; reflexivity|exists [x]; rewrite Ei; reflexivity].
  - destruct (get_mut _ _) as [e|[m l]]; [inversion H; subst; same_streams|].
    destruct (negb _); inversion H; subst; same_streams.
Qed.

Lemma runner_streams : forall f,
  (forall rt l o, Runner.run_internal f rt l = o ->
     match o with Done rt' | Fail rt' _ => streams_extend rt rt' | OutOfFuel => True end) /\
  (forall rt inst o, Runner.run_inst f rt inst = o ->
     match o with Done rt' | Fail rt' _ => streams_extend rt rt' | OutOfFuel => True end).
Proof.
  induction f as [|f [IHl IHi]]; split; intros rt x o H; subst o; [exact I|exact I| |].
  - cbn [Runner.run_internal]. destruct x as [|inst rest]; [same_streams|].
    specialize (IHi rt inst _ eq_refl).
    destruct (Runner.run_inst f rt inst) as [rt1|rt1 e|]; try exact IHi.
    specialize (IHl rt1 rest _ eq_refl).
    destruct (Runner.run_internal f rt1 rest); try exact I; eapply streams_extend_trans; eauto.
  - cbn [Runner.run_inst].
    destruct (exec_one x rt) as [rt1 r] eqn:E. pose proof (exec_one_streams _ _ _ _ E) as H1.
    destruct r as [e|[|sub]]; try exact H1.
    specialize (IHl rt1 sub _ eq_refl).
    destruct (Runner.run_internal f rt1 sub) as [rt2|rt2 e|].
    + specialize (IHi rt2 x _ eq_refl).
      destruct (Runner.run_inst f rt2 x); try exact I;
        (eapply streams_extend_trans; [exact H1|eapply streams_extend_trans; eauto]).
    + eapply streams_extend_trans; eauto.
    + exact I.
Qed.

(* ------------------------------------------------------------------ *)
(** ** [runtime::run] against [Runner::run] *)







(* ------------------------------------------------------------------ *)
(** ** The step driver against the run-to-completion driver *)

Module StepSim.
Import StepRunner.




Section WithProgram.
Variable P : Program.

Definition at_ (rt : Runtime) (idx : option ProgramIndex) : StepRunner :=
  {| program := P; runtime := rt; index := idx |}.

Lemma step_next : forall q full i inst rt rt',
  body_at P q = Some full -> nth_error full i = Some inst ->
  exec_one inst rt = (rt', inr Next) ->
  step (at_ rt (Some (q ++ [i]))) = StepOk (at_ rt' (next_pos q full i)).
Proof.
  intros q full i inst rt rt' Hb Hn He. unfold step, at_; simpl.
  rewrite (instruction_at_snoc q P full i Hb), Hn, He.
  unfold step_index. rewrite (step_index_snoc q P full i Hb).
  unfold next_pos. destruct (S i <? length full)%nat; [reflexivity|].
  unfold step_out. rewrite removelast_last. destruct q; reflexivity.
Qed.

Lemma step_enter_empty : forall q full i inst rt rt',
  body_at P q = Some full -> nth_error full i = Some inst ->
  exec_one inst rt = (rt', inr (StepIn [])) ->
  step (at_ rt (Some (q ++ [i]))) = StepOk (at_ rt' (Some (q ++ [i]))).
Proof.
  intros q full i inst rt rt' Hb Hn He. unfold step, at_; simpl.
  rewrite (instruction_at_snoc q P full i Hb), Hn, He. reflexivity.
Qed.

Lemma step_enter : forall q full i inst rt rt' x xs,
  body_at P q = Some full -> nth_error full i = Some inst ->
  exec_one inst rt = (rt', inr (StepIn (x :: xs))) ->
  step (at_ rt (Some (q ++ [i]))) = StepOk (at_ rt' (Some ((q ++ [i]) ++ [0%nat]))).
Proof.
  intros q full i inst rt rt' x xs Hb Hn He. unfold step, at_; simpl.
  rewrite (instruction_at_snoc q P full i Hb), Hn, He. reflexivity.
Qed.




Definition inside (q : list nat) (idx : option ProgramIndex) : Prop :=
  exists j r, idx = Some (q ++ j :: r).


Lemma exit_not_inside : forall q, ~ inside q (exit_of q).
Proof.
  intros q (j & r & H). destruct q as [|h t]; simpl in H; [discriminate|].
  inversion H as [H1]. apply (f_equal (@length nat)) in H1.
  rewrite length_app in H1. simpl in H1. lia.
Qed.


End WithProgram.
End StepSim.

(* ------------------------------------------------------------------ *)
(** ** Parser lemmas *)

Section ParserLemmas.
Context {St : Type} `{TokenStream St}.

Lemma next_token_info_none : forall s s' r,
  next s = (s', r) ->
  next_token_info {| token_stream := s; unget_buf := None |}
  = ({| token_stream := s'; unget_buf := None |}, r).
Proof. intros s s' r E. unfold next_token_info. simpl. rewrite E. reflexivity. Qed.

Lemma xadd_loop_run : forall ax more s s1 s2 t operand f,
  forallb (on_axis ax) more = true -> yields s more s1 ->
  next s1 = (s2, inr t) -> on_axis ax t = false -> (length more < f)%nat ->
  xadd_loop f {| token_stream := s; unget_buf := None |} operand (axis_inc ax) (axis_dec ax)
  = POk {| token_stream := s2; unget_buf := Some t |} (operand + run_sum ax more).
Proof.
  intros ax more. induction more as [|x more IH]; intros s s1 s2 t operand f Hall Hy Hn Ht Hf;
    destruct f as [|f]; simpl in Hf; try lia.
  - simpl in Hy. subst s1. cbn [xadd_loop xadd_loop_fat].
    rewrite (next_token_info_none _ _ _ Hn). cbn beta iota.
    unfold on_axis in Ht. apply orb_false_iff in Ht as [Ht1 Ht2].
    rewrite Ht1, Ht2. simpl. rewrite Z.add_0_r. reflexivity.
  - simpl in Hall. apply andb_true_iff in Hall as [Hx Hall].
    destruct Hy as (s0 & Hs0 & Hy).
    cbn [xadd_loop xadd_loop_fat]. rewrite (next_token_info_none _ _ _ Hs0). cbn beta iota.
    unfold on_axis in Hx.
    destruct (opt_type_eqb (info_token_type x) (axis_inc ax)) eqn:Ei.
    + rewrite (IH s0 s1 s2 t (operand + 1) f Hall Hy Hn Ht ltac:(lia)).
      f_equal. unfold run_sum. simpl. rewrite Ei. ring.
    + simpl in Hx. rewrite Hx.
      rewrite (IH s0 s1 s2 t (operand - 1) f Hall Hy Hn Ht ltac:(lia)).
      f_equal. unfold run_sum. simpl. rewrite Ei. ring.
Qed.

Lemma xadd_loop_fat_run : forall ax more s s1 s2 t operand toks f,
  forallb (on_axis ax) more = true -> yields s more s1 ->
  next s1 = (s2, inr t) -> on_axis ax t = false -> (length more < f)%nat ->
  xadd_loop_fat f {| token_stream := s; unget_buf := None |} operand toks
    (axis_inc ax) (axis_dec ax)
  = POk {| token_stream := s2; unget_buf := Some t |}
        (operand + run_sum ax more, toks ++ more).
Proof.
  intros ax more. induction more as [|x more IH];
    intros s s1 s2 t operand toks f Hall Hy Hn Ht Hf;
    destruct f as [|f]; simpl in Hf; try lia.
  - simpl in Hy. subst s1. cbn [xadd_loop xadd_loop_fat].
    rewrite (next_token_info_none _ _ _ Hn). cbn beta iota.
    unfold on_axis in Ht. apply orb_false_iff in Ht as [Ht1 Ht2].
    rewrite Ht1, Ht2. simpl. rewrite Z.add_0_r, app_nil_r. reflexivity.
  - simpl in Hall. apply andb_true_iff in Hall as [Hx Hall].
    destruct Hy as (s0 & Hs0 & Hy).
    cbn [xadd_loop xadd_loop_fat]. rewrite (next_token_info_none _ _ _ Hs0). cbn beta iota.
    unfold on_axis in Hx.
    destruct (opt_type_eqb (info_token_type x) (axis_inc ax)) eqn:Ei.
    + rewrite (IH s0 s1 s2 t (operand + 1) (toks ++ [x]) f Hall Hy Hn Ht ltac:(lia)).
      rewrite <- app_assoc. f_equal. f_equal. unfold run_sum. simpl. rewrite Ei. ring.
    + simpl in Hx. rewrite Hx.
      rewrite (IH s0 s1 s2 t (operand - 1) (toks ++ [x]) f Hall Hy Hn Ht ltac:(lia)).
      rewrite <- app_assoc. f_equal. f_equal. unfold run_sum. simpl. rewrite Ei. ring.
Qed.

(** Reading the first token of a context that yields [first :: more]. *)
Lemma ctx_yields_first : forall ctx first more s1,
  ctx_yields ctx (first :: more) s1 ->
  exists s0, next_token_info ctx = ({| token_stream := s0; unget_buf := None |}, inr first)
             /\ yields s0 more s1.
Proof.
  intros [s u] first more s1 Hy. unfold ctx_yields in Hy. simpl in Hy.
  destruct u as [x|].
  - destruct Hy as (l' & Hl & Hy). inversion Hl; subst.
    exists s. split; [reflexivity|exact Hy].
  - destruct Hy as (s0 & Hs0 & Hy). exists s0. split; [|exact Hy].
    unfold next_token_info. simpl. rewrite Hs0. reflexivity.
Qed.

Lemma run_sum_cons : forall ax first more,
  run_sum ax (first :: more)
  = (if opt_type_eqb (info_token_type first) (axis_inc ax) then 1 else -1) + run_sum ax more.
Proof. reflexivity. Qed.

(** One step of [parse_loop] on a maximal run of one axis. *)
Lemma parse_loop_fold : forall ax f ctx run s1 s2 t top acc,
  run <> [] -> forallb (on_axis ax) run = true -> ctx_yields ctx run s1 ->
  next s1 = (s2, inr t) -> on_axis ax t = false -> (length run <= f)%nat ->
  parse_loop (S f) ctx top acc
  = parse_loop f {| token_stream := s2; unget_buf := Some t |} top
      (if run_sum ax run =? 0 then acc else acc ++ [axis_gen ax (run_sum ax run)]).
Proof.
  intros ax f ctx run s1 s2 t top acc Hne Hall Hy Hn Ht Hlen.
  destruct run as [|first more]; [congruence|].
  simpl in Hall. apply andb_true_iff in Hall as [Hf Hall]. simpl in Hlen.
  destruct (ctx_yields_first _ _ _ _ Hy) as (s0 & Hn0 & Hy0).
  cbn [parse_loop]. rewrite Hn0. cbn beta iota.
  rewrite run_sum_cons.
  pose proof (xadd_loop_run ax more s0 s1 s2 t) as X.
  unfold on_axis in Hf.
  destruct ax; destruct (info_token_type first) as [[]|] eqn:Et; simpl in Hf;
    try discriminate; unfold push_xadd;
    rewrite (X _ f Hall Hy0 Hn Ht ltac:(lia)); cbn [pbind opt_type_eqb axis_inc TokenType_eqb];
    destruct (_ =? 0); reflexivity.
Qed.

Lemma parse_loop_fat_fold : forall ax f ctx run s1 s2 t top acc,
  run <> [] -> forallb (on_axis ax) run = true -> ctx_yields ctx run s1 ->
  next s1 = (s2, inr t) -> on_axis ax t = false -> (length run <= f)%nat ->
  parse_loop_fat (S f) ctx top acc
  = parse_loop_fat f {| token_stream := s2; unget_buf := Some t |} top
      (acc ++ [mkFat (if run_sum ax run =? 0 then FNop else axis_fgen ax (run_sum ax run)) run]).
Proof.
  intros ax f ctx run s1 s2 t top acc Hne Hall Hy Hn Ht Hlen.
  destruct run as [|first more]; [congruence|].
  simpl in Hall. apply andb_true_iff in Hall as [Hf Hall]. simpl in Hlen.
  destruct (ctx_yields_first _ _ _ _ Hy) as (s0 & Hn0 & Hy0).
  cbn [parse_loop_fat]. rewrite Hn0. cbn beta iota.
  rewrite run_sum_cons.
  pose proof (xadd_loop_fat_run ax more s0 s1 s2 t) as X.
  unfold on_axis in Hf.
  destruct ax; destruct (info_token_type first) as [[]|] eqn:Et; simpl in Hf;
    try discriminate; unfold push_xadd_fat;
    rewrite (X _ [first] f Hall Hy0 Hn Ht ltac:(lia)); cbn [pbind opt_type_eqb axis_inc TokenType_eqb];
    reflexivity.
Qed.

Lemma inst_nonzero_loop : forall sub, inst_nonzero (UntilZero sub) = all_nonzero sub.
Proof.
  intros sub. induction sub as [|a sub IH]; [reflexivity|].
  cbn [inst_nonzero]. cbn [inst_nonzero] in IH. rewrite IH. reflexivity.
Qed.

Lemma all_nonzero_app : forall l1 l2,
  all_nonzero (l1 ++ l2) = all_nonzero l1 && all_nonzero l2.
Proof. intros. unfold all_nonzero. apply forallb_app. Qed.

Lemma push_xadd_nonzero : forall f ctx acc op inc dec gen c acc',
  (forall n, n <> 0 -> inst_nonzero (gen n) = true) ->
  all_nonzero acc = true ->
  push_xadd f ctx acc op inc dec gen = POk c acc' -> all_nonzero acc' = true.
Proof.
  intros f ctx acc op inc dec gen c acc' Hg Hacc E. unfold push_xadd in E.
  destruct (xadd_loop f ctx op inc dec) as [c0 n| | |]; cbn [pbind] in E; try discriminate.
  inversion E; subst. destruct (n =? 0) eqn:En; simpl; [assumption|].
  rewrite all_nonzero_app, Hacc. simpl. rewrite Hg; [reflexivity|].
  apply Z.eqb_neq. exact En.
Qed.

Lemma parse_loop_nonzero : forall f ctx top acc c insts,
  all_nonzero acc = true -> parse_loop f ctx top acc = POk c insts ->
  all_nonzero insts = true.
Proof.
  induction f as [|f IH]; intros ctx top acc c insts Hacc E; cbn [parse_loop] in E;
    [discriminate|].
  destruct (next_token_info ctx) as [ctx1 [e|info]]; [discriminate|].
  assert (Hgp : forall n, n <> 0 -> inst_nonzero (PAdd n) = true)
    by (intros n Hn; simpl; apply Z.eqb_neq in Hn; rewrite Hn; reflexivity).
  assert (Hgd : forall n, n <> 0 -> inst_nonzero (DAdd n) = true)
    by (intros n Hn; simpl; apply Z.eqb_neq in Hn; rewrite Hn; reflexivity).
  destruct (info_token_type info) as [[]|].
  1-4: match type of E with
       | pbind ?r _ = _ =>
           destruct r as [c0 a| | |] eqn:Er; cbn [pbind] in E; try discriminate;
           eapply IH; [|exact E]; eapply push_xadd_nonzero; [|exact Hacc|exact Er]; assumption
       end.
  1-2: eapply IH; [|exact E]; rewrite all_nonzero_app, Hacc; reflexivity.
  - destruct (parse_loop f ctx1 false []) as [c0 sub| | |] eqn:Er; cbn [pbind] in E;
      try discriminate.
    eapply IH; [|exact E]. rewrite all_nonzero_app, Hacc.
    change (all_nonzero [UntilZero sub]) with (inst_nonzero (UntilZero sub) && true).
    rewrite inst_nonzero_loop, (IH _ _ [] _ _ eq_refl Er). reflexivity.
  - destruct top; inversion E; subst; assumption.
  - destruct top; inversion E; subst; assumption.
Qed.

Lemma fat_to_inst_app : forall l1 l2,
  fat_instructions_to_instructins (l1 ++ l2)
  = fat_instructions_to_instructins l1 ++ fat_instructions_to_instructins l2.
Proof.
  induction l1 as [|x l1 IH]; intros l2; [reflexivity|].
  simpl. destruct (kind_as_instruction (fat_kind x)); rewrite IH; reflexivity.
Qed.

Lemma kind_as_instruction_loop : forall sub,
  kind_as_instruction (FUntilZero sub)
  = Some (UntilZero (fat_instructions_to_instructins sub)).
Proof.
  intros sub. cbn [kind_as_instruction]. do 2 f_equal.
  induction sub as [|[k t] sub IH]; [reflexivity|].
  cbn [fat_instructions_to_instructins fat_kind]. rewrite <- IH. reflexivity.
Qed.

Lemma xadd_lockstep : forall f ctx op toks inc dec,
  xadd_rel (xadd_loop_fat f ctx op toks inc dec) (xadd_loop f ctx op inc dec).
Proof.
  induction f as [|f IH]; intros ctx op toks inc dec; [exact I|].
  cbn [xadd_loop xadd_loop_fat].
  destruct (next_token_info ctx) as [ctx1 [e|info]]; [reflexivity|].
  destruct (opt_type_eqb (info_token_type info) inc); [apply IH|].
  destruct (opt_type_eqb (info_token_type info) dec); [apply IH|].
  destruct (unget_token_info ctx1 info); simpl; auto.
Qed.

Ltac fat_acc_step IH :=
  match goal with
  | |- parse_rel _ (parse_loop_fat _ _ _ ?fa) (parse_loop _ _ _ ?pa) =>
      replace pa with (as_program fa); [apply IH|]
  end.

Lemma parse_lockstep : forall f ctx top facc,
  parse_rel top (parse_loop_fat f ctx top facc) (parse_loop f ctx top (as_program facc)).
Proof.
  induction f as [|f IH]; intros ctx top facc; [exact I|].
  cbn [parse_loop parse_loop_fat].
  destruct (next_token_info ctx) as [ctx1 [e|info]]; [reflexivity|].
  destruct (info_token_type info) as [[]|].
  1-4: unfold push_xadd_fat, push_xadd;
    match goal with
    | |- parse_rel _ (pbind (pbind (xadd_loop_fat ?f' ?c ?o ?t ?i ?d) _) _)
                     (pbind (pbind (xadd_loop _ _ _ _ _) _) _) =>
        pose proof (xadd_lockstep f' c o t i d) as X;
        destruct (xadd_loop_fat f' c o t i d) as [c1 [o1 t1]| | |];
        destruct (xadd_loop f' c o i d) as [c2 o2| | |];
        cbn [xadd_rel] in X; try contradiction; cbn [pbind]; try exact X; try exact I
    end;
    destruct X as [<- <-]; fat_acc_step IH;
    unfold as_program; rewrite fat_to_inst_app;
    destruct (o1 =? 0); simpl; [rewrite app_nil_r|]; reflexivity.
  1-2: fat_acc_step IH; unfold as_program; rewrite fat_to_inst_app; reflexivity.
  - pose proof (IH ctx1 false []) as X. cbn [as_program fat_instructions_to_instructins] in X.
    destruct (parse_loop_fat f ctx1 false []) as [c1 [sub last]| | |];
      destruct (parse_loop f ctx1 false []) as [c2 p| | |];
      cbn [parse_rel] in X; try contradiction; cbn [pbind]; try exact X; try exact I.
    destruct X as (<- & Hp & Hl). destruct last as [l|]; [|exfalso; exact (Hl eq_refl)].
    fat_acc_step IH. unfold as_program. rewrite fat_to_inst_app. cbn [fat_instructions_to_instructins fat_kind].
    rewrite kind_as_instruction_loop. unfold as_program in Hp. rewrite Hp. reflexivity.
  - destruct top; simpl; [reflexivity|]. repeat split. discriminate.
  - destruct top; simpl; [|reflexivity]. repeat split.
Qed.

End ParserLemmas.

(* ------------------------------------------------------------------ *)
(** ** The simple tokenizer *)

Module SimpleFacts.
Import Simple.

Lemma insert_by_key_In : forall x d l, In x (insert_by_key d l) <-> d = x \/ In x l.
Proof.
  intros x d l. induction l as [|y l IH]; simpl; [tauto|].
  destruct (sort_key y <=? sort_key d); simpl; [rewrite IH|]; tauto.
Qed.

Lemma fold_insert_In : forall x l acc,
  In x (fold_left (fun acc d => insert_by_key d acc) l acc) <-> In x l \/ In x acc.
Proof.
  intros x l. induction l as [|d l IH]; intros acc; simpl; [tauto|].
  rewrite IH, insert_by_key_In. tauto.
Qed.

Lemma sort_by_key_In : forall x l, In x (sort_by_key l) <-> In x l.
Proof. intros x l. unfold sort_by_key. rewrite fold_insert_In. simpl. tauto. Qed.

Definition key_le (x y : SimpleTokenDef) : Prop := sort_key x <= sort_key y.

Lemma insert_by_key_sorted : forall d l,
  StronglySorted key_le l -> StronglySorted key_le (insert_by_key d l).
Proof.
  intros d l. induction l as [|y l IH]; intros Hs; simpl.
  - repeat constructor.
  - apply StronglySorted_inv in Hs as [Hs Hf].
    destruct (sort_key y <=? sort_key d) eqn:E.
    + apply Z.leb_le in E. constructor; [apply IH, Hs|].
      apply Forall_forall. intros z Hz. apply insert_by_key_In in Hz as [<-|Hz].
      * exact E.
      * exact (proj1 (Forall_forall _ _) Hf z Hz).
    + apply Z.leb_gt in E. constructor; [constructor; assumption|].
      constructor; [unfold key_le; lia|].
      apply Forall_forall. intros z Hz.
      pose proof (proj1 (Forall_forall _ _) Hf z Hz). unfold key_le in *. lia.
Qed.

Lemma sort_by_key_sorted : forall l, StronglySorted key_le (sort_by_key l).
Proof.
  intros l. unfold sort_by_key.
  assert (G : forall acc, StronglySorted key_le acc ->
    StronglySorted key_le (fold_left (fun acc d => insert_by_key d acc) l acc)).
  { induction l as [|d l IH]; intros acc Hacc; simpl; [exact Hacc|].
    apply IH, insert_by_key_sorted, Hacc. }
  apply G. constructor.
Qed.

Lemma key_le_count : forall x y, key_le x y -> (char_count y <= char_count x)%nat.
Proof. intros x y H. unfold key_le, sort_key in H. lia. Qed.

(** On a table sorted by descending length, [find] returns a longest
    matching entry. *)
Lemma find_longest : forall (p : SimpleTokenDef -> bool) l d b,
  StronglySorted key_le l -> find p l = Some d -> In b l -> p b = true ->
  (char_count b <= char_count d)%nat.
Proof.
  intros p l. induction l as [|x l IH]; intros d b Hs Hf Hb Hp; [destruct Hb|].
  apply StronglySorted_inv in Hs as [Hs Hall]. simpl in Hf.
  destruct (p x) eqn:Ex.
  - inversion Hf; subst d. destruct Hb as [->|Hb]; [lia|].
    apply key_le_count. exact (proj1 (Forall_forall _ _) Hall b Hb).
  - destruct Hb as [->|Hb]; [congruence|]. exact (IH d b Hs Hf Hb Hp).
Qed.

Lemma table_char_count : forall spec d,
  In d (token_table (to_tokenizer spec)) -> char_count d = List.length (def_token d).
Proof.
  intros spec d H. simpl in H. rewrite sort_by_key_In in H.
  simpl in H. intuition (subst; reflexivity).
Qed.

Lemma table_sorted : forall spec, StronglySorted key_le (token_table (to_tokenizer spec)).
Proof. intros spec. apply sort_by_key_sorted. Qed.

Lemma starts_with_app : forall s p,
  starts_with s p = true -> s = p ++ skipn (List.length p) s.
Proof.
  intros s p. revert s. induction p as [|x p IH]; intros s H; [reflexivity|].
  destruct s as [|y s]; [discriminate|].
  simpl in H. apply andb_true_iff in H as [Hxy H]. apply Z.eqb_eq in Hxy. subst y.
  simpl. f_equal. apply IH, H.
Qed.

Lemma char_len_pos : forall c, (1 <= char_len_utf8 c)%nat.
Proof. intros c. unfold char_len_utf8. repeat destruct (_ <? _); lia. Qed.

Lemma str_from_app : forall p r, str_from (p ++ r) (str_len p) = Some r.
Proof.
  induction p as [|c p IH]; intros r; [destruct r; reflexivity|].
  pose proof (char_len_pos c) as Hc. cbn [str_len fold_right app].
  fold (str_len p).
  destruct (char_len_utf8 c + str_len p)%nat as [|n] eqn:E; [lia|].
  cbn [str_from]. rewrite <- E.
  replace (Nat.leb (char_len_utf8 c) (char_len_utf8 c + str_len p)) with true
    by (symmetry; apply Nat.leb_le; lia).
  replace (char_len_utf8 c + str_len p - char_len_utf8 c)%nat with (str_len p) by lia.
  apply IH.
Qed.

Lemma str_upto_app : forall p r, str_upto (p ++ r) (str_len p) = p.
Proof.
  induction p as [|c p IH]; intros r; [destruct r; reflexivity|].
  pose proof (char_len_pos c) as Hc. cbn [str_len fold_right app].
  fold (str_len p).
  destruct (char_len_utf8 c + str_len p)%nat as [|n] eqn:E; [lia|].
  cbn [str_upto]. rewrite <- E.
  replace (char_len_utf8 c + str_len p - char_len_utf8 c)%nat with (str_len p) by lia.
  rewrite IH. reflexivity.
Qed.

Lemma str_from_trans : forall s n t m u,
  str_from s n = Some t -> str_from t m = Some u -> str_from s (n + m) = Some u.
Proof.
  induction s as [|c s IH]; intros n t m u H1 H2.
  - destruct n; cbn in H1; [|discriminate]. inversion H1; subst. exact H2.
  - destruct n as [|n]; cbn [str_from] in H1.
    + inversion H1; subst. exact H2.
    + destruct (Nat.leb (char_len_utf8 c) (S n)) eqn:E; [|discriminate].
      apply Nat.leb_le in E.
      replace (S n + m)%nat with (S (n + m)) by lia. cbn [str_from].
      replace (Nat.leb (char_len_utf8 c) (S (n + m))) with true
        by (symmetry; apply Nat.leb_le; lia).
      replace (S (n + m) - char_len_utf8 c)%nat with (S n - char_len_utf8 c + m)%nat by lia.
      exact (IH _ _ _ _ H1 H2).
Qed.

Lemma scan_first : forall table k head rb rc d,
  (forall i, (i < k)%nat -> find_token_at (skipn i head) table = None) ->
  find_token_at (skipn k head) table = Some d -> (k < List.length head)%nat ->
  scan table head rb rc
  = Some (d, (rb + str_len (firstn k head))%nat, (rc + k)%nat, skipn k head).
Proof.
  intros table k. induction k as [|k IH]; intros head rb rc d Hbefore Hk Hlen;
    (destruct head as [|c rest]; [simpl in Hlen; lia|]).
  - cbn [scan skipn firstn] in *. rewrite Hk. cbn. rewrite !Nat.add_0_r. reflexivity.
  - cbn [scan]. rewrite (Hbefore 0%nat ltac:(lia) : find_token_at (c :: rest) table = None).
    rewrite (IH rest _ _ d).
    + cbn [firstn str_len fold_right skipn]. fold (str_len (firstn k rest)).
      rewrite <- Nat.add_assoc, Nat.add_succ_r. reflexivity.
    + intros i Hi. exact (Hbefore (S i) ltac:(lia)).
    + exact Hk.
    + simpl in Hlen. lia.
Qed.

End SimpleFacts.

(* ================================================================== *)
(** * The claims *)



(* ------------------------------------------------------------------ *)
(** ** Helpers for the runtime claims *)

Lemma wrap_isize_as_u8 : forall x, as_u8 (wrap_isize x) = x mod 256.
Proof.
  intro x. unfold as_u8, wrap_isize.
  rewrite (Z.mod_eq (x + 2 ^ 63) (2 ^ 64)) by lia.
  set (q := (x + 2 ^ 63) / 2 ^ 64).
  replace (x + 2 ^ 63 - 2 ^ 64 * q - 2 ^ 63) with (x + (- (q * 2 ^ 56)) * 256)
    by (unfold q; ring_simplify; reflexivity).
  apply Z_mod_plus_full.
Qed.

Lemma length_list_set : forall v i x, length (list_set v i x) = length v.
Proof. induction v as [|y v IH]; intros [|i] x; simpl; auto. Qed.

Lemma mem_wf_new : forall sz, mem_wf (Memory_new sz).
Proof. intros [n| |]; unfold mem_wf; simpl; auto. apply repeat_length. Qed.

Lemma get_mut_wf : forall m a m' l,
  mem_wf m -> get_mut m a = inr (m', l) -> mem_wf m'.
Proof.
  intros [sz r lf] a m' l Hwf H. unfold get_mut, mem_wf in *; simpl in *.
  destruct (0 <=? a).
  - destruct (length r <=? Z.to_nat a)%nat.
    + destruct sz; inversion H; subst; simpl; auto.
    + inversion H; subst. exact Hwf.
  - destruct sz; try discriminate.
    destruct (length lf <=? _)%nat; inversion H; subst; simpl; auto.
Qed.

Lemma store_wf : forall m l x, mem_wf m -> mem_wf (store m l x).
Proof.
  intros [sz r lf] [i|i] x; unfold mem_wf; simpl; auto.
  destruct sz; auto. rewrite length_list_set. auto.
Qed.

(** Well-formedness is an invariant of every instruction. *)
Lemma exec_one_wf : forall inst rt rt' r,
  mem_wf (memory rt) -> exec_one inst rt = (rt', r) -> mem_wf (memory rt').
Proof.
  intros inst rt rt' r Hwf H.
  destruct inst as [o|o| | |sub]; simpl in H.
  - inversion H; subst. exact Hwf.
  - unfold add_data in H. destruct (get_mut _ _) as [e|[m l]] eqn:E;
      inversion H; subst; simpl; auto.
    apply store_wf. eapply get_mut_wf; eauto.
  - unfold output_byte in H. destruct (get_mut _ _) as [e|[m l]] eqn:E;
      [inversion H; subst; exact Hwf|].
    pose proof (get_mut_wf _ _ _ _ Hwf E).
    destruct (write_byte _ _); inversion H; subst; simpl; auto.
  - unfold input_byte in H. destruct (get_mut _ _) as [e|[m l]] eqn:E;
      [inversion H; subst; exact Hwf|].
    pose proof (get_mut_wf _ _ _ _ Hwf E).
    destruct (input rt) as [|[b| |] rest]; inversion H; subst; simpl; auto.
    apply store_wf; auto.
  - destruct (get_mut _ _) as [e|[m l]] eqn:E; [inversion H; subst; exact Hwf|].
    pose proof (get_mut_wf _ _ _ _ Hwf E).
    destruct (negb _); inversion H; subst; simpl; auto.
Qed.

Lemma vec_resize_grow : forall v n x,
  (length v <= n)%nat -> vec_resize v n x = v ++ repeat x (n - length v).
Proof. intros v n x H. unfold vec_resize. rewrite firstn_all2 by lia. reflexivity. Qed.

Lemma grow_or_keep : forall (v : list Z) i,
  (i < length v)%nat -> v = v ++ repeat 0 (S i - length v).
Proof. intros v i H. replace (S i - length v)%nat with 0%nat by lia. simpl. rewrite app_nil_r. reflexivity. Qed.

(** C4.  Memory access ([Memory::get_mut]) under each policy, for every
    well-formed memory (well-formedness holds for [Memory::new] and is
    kept by every instruction, [mem_wf_new] and [exec_one_wf]):
    - [Fixed(n)]: the access succeeds, on the existing cell and without
      changing the memory, iff [0 <= a < n]; otherwise it fails with
      [OutOfMemoryBounds(a)];
    - [RightInfinite]: a negative address fails with [OutOfMemoryBounds(a)];
      a non-negative one succeeds, after growing the right buffer with
      zeros up to cell [a] (no growth when the cell exists);
    - [BothInfinite]: every address succeeds, after growing the right
      buffer (for [a >= 0]) or the left buffer at index [-(a+1)] (for
      [a < 0]) with zeros.
    Scenario D: [PAdd(-1), DAdd(1)] fails with [OutOfMemoryBounds(-1)]
    under the default [Fixed(30000)] (both through [Runner::run] and
    [runtime::run]) and succeeds under [BothInfinite]. *)
Theorem memory_access_policy :
  (forall m a, mem_wf m ->
   (forall n, size m = Fixed n ->
      ((0 <= a < Z.of_nat n) -> get_mut m a = inr (m, LRight (Z.to_nat a))) /\
      (~ (0 <= a < Z.of_nat n) -> get_mut m a = inl (OutOfMemoryBounds a))) /\
   (size m = RightInfinite ->
      (a < 0 -> get_mut m a = inl (OutOfMemoryBounds a)) /\
      (0 <= a -> get_mut m a =
         inr (mkMemory (size m)
                (right_data m ++ repeat 0 (S (Z.to_nat a) - length (right_data m)))
                (left_data m), LRight (Z.to_nat a)))) /\
   (size m = BothInfinite ->
      (0 <= a -> get_mut m a =
         inr (mkMemory (size m)
                (right_data m ++ repeat 0 (S (Z.to_nat a) - length (right_data m)))
                (left_data m), LRight (Z.to_nat a))) /\
      (a < 0 -> get_mut m a =
         inr (mkMemory (size m) (right_data m)
                (left_data m ++ repeat 0 (S (Z.to_nat (- (a + 1))) - length (left_data m))),
              LLeft (Z.to_nat (- (a + 1))))))) /\
  outcome_error (Runner.run 10 [PAdd (-1); DAdd 1] [] vec_sink DEFAULT_MEMSIZE)
    = Some (OutOfMemoryBounds (-1)) /\
  outcome_error (Legacy.run_default 10 [PAdd (-1); DAdd 1] [] vec_sink)
    = Some (OutOfMemoryBounds (-1)) /\
  outcome_output (Runner.run 10 [PAdd (-1); DAdd 1] [] vec_sink BothInfinite) = Some [] /\
  outcome_output (Legacy.run_with_memsize 10 [PAdd (-1); DAdd 1] [] vec_sink BothInfinite)
    = Some [].
Proof.
  split; [|vm_compute; repeat split].
  intros [sz r lf] a Hwf. unfold mem_wf in Hwf. simpl in Hwf.
  unfold get_mut. cbn [size right_data left_data]. split; [|split].
  - intros n Hn. subst sz. split.
    + intros Ha. replace (0 <=? a) with true by (symmetry; apply Z.leb_le; lia).
      replace (length r <=? Z.to_nat a)%nat with false
        by (symmetry; apply Nat.leb_gt; lia).
      reflexivity.
    + intros Ha. destruct (0 <=? a) eqn:E; [|reflexivity].
      apply Z.leb_le in E.
      replace (length r <=? Z.to_nat a)%nat with true
        by (symmetry; apply Nat.leb_le; lia).
      reflexivity.
  - intros Hs. subst sz. split.
    + intros Ha. replace (0 <=? a) with false by (symmetry; apply Z.leb_gt; lia).
      reflexivity.
    + intros Ha. replace (0 <=? a) with true by (symmetry; apply Z.leb_le; lia).
      destruct (length r <=? Z.to_nat a)%nat eqn:E.
      * apply Nat.leb_le in E. rewrite vec_resize_grow by lia. reflexivity.
      * apply Nat.leb_gt in E. rewrite <- (grow_or_keep r (Z.to_nat a) E). reflexivity.
  - intros Hs. subst sz. split.
    + intros Ha. replace (0 <=? a) with true by (symmetry; apply Z.leb_le; lia).
      destruct (length r <=? Z.to_nat a)%nat eqn:E.
      * apply Nat.leb_le in E. rewrite vec_resize_grow by lia. reflexivity.
      * apply Nat.leb_gt in E. rewrite <- (grow_or_keep r (Z.to_nat a) E). reflexivity.
    + intros Ha. replace (0 <=? a) with false by (symmetry; apply Z.leb_gt; lia).
      destruct (length lf <=? Z.to_nat (- (a + 1)))%nat eqn:E.
      * apply Nat.leb_le in E. rewrite vec_resize_grow by lia. reflexivity.
      * apply Nat.leb_gt in E. rewrite <- (grow_or_keep lf _ E). reflexivity.
Qed.

(** C9.  [DAdd(d)] replaces the accessed cell (its old value, zero for a
    freshly grown cell) by [(old + d) mod 256], for every [d]; and
    Scenario C: [[Input, DAdd(3), Output]] on input byte 254 writes the
    single byte 1, through [Runner::run], [runtime::run] and the step
    driver. *)
Theorem dadd_wraps_mod_256 :
  (forall rt d m l,
     get_mut (memory rt) (pointer rt) = inr (m, l) ->
     exec_one (DAdd d) rt = (set_memory rt (store m l ((load m l + d) mod 256)), inr Next)) /\
  outcome_output (Runner.run 10 [Input; DAdd 3; Output] [InByte 254] vec_sink DEFAULT_MEMSIZE)
    = Some [1] /\
  outcome_output (Legacy.run_default 10 [Input; DAdd 3; Output] [InByte 254] vec_sink)
    = Some [1] /\
  match StepRunner.steps 3 (StepRunner.new [Input; DAdd 3; Output] [InByte 254] vec_sink) with
  | StepRunner.StepOk sr =>
      StepRunner.index sr = None /\ written (output (StepRunner.runtime sr)) = [1]
  | _ => False
  end.
Proof.
  split; [|vm_compute; repeat split].
  intros rt d m l H. simpl. unfold add_data. rewrite H.
  rewrite wrap_isize_as_u8. reflexivity.
Qed.

(** C10.  Once the step driver is finished ([is_running] is false),
    [step] returns [Ok(())] and leaves the runner (pointer, memory,
    input, output and index) unchanged. *)
Theorem step_after_finish_is_noop : forall sr,
  StepRunner.is_running sr = false -> StepRunner.step sr = StepRunner.StepOk sr.
Proof.
  intros sr H. unfold StepRunner.is_running in H. unfold StepRunner.step.
  destruct (StepRunner.index sr); [discriminate|reflexivity].
Qed.

(** C2 (defect).  The [Input] instruction on an exhausted input, with
    its memory access succeeding: [exec_one] (the instruction primitive
    of [Runner::run] and of [StepRunner::step]) fails with [Eof], but
    the run-to-completion entry points [runtime::run] and
    [runtime::run_with_memsize] fail with the transport error
    [IoError] of kind [UnexpectedEof], a different variant.  Evaluated
    on the program [[Input]] with an empty input. *)
Theorem input_eof_variants :
  outcome_error (Runner.run 10 [Input] [] vec_sink DEFAULT_MEMSIZE) = Some Eof /\
  (match StepRunner.step (StepRunner.new [Input] [] vec_sink) with
   | StepRunner.StepErr _ e => Some e
   | _ => None
   end) = Some Eof /\
  outcome_error (Legacy.run_default 10 [Input] [] vec_sink)
    = Some (IoError UnexpectedEof) /\
  outcome_error (Legacy.run_with_memsize 10 [Input] [] vec_sink BothInfinite)
    = Some (IoError UnexpectedEof).
Proof. vm_compute. repeat split. Qed.

(** C6 (as the code does it).  One [step] at a valid index [q ++ [i]]
    (the [i]-th instruction of the sequence addressed by [q]):
    - [Next]: the index moves to the next sibling [q ++ [i+1]] if there
      is one; otherwise the deepest level is popped, so the index points
      back at the enclosing loop instruction [q] (whose head is re-tested
      at the next step), or becomes absent, which finishes the program,
      when [q] is empty ([next_pos], [exit_of]);
    - [StepIn] with an empty body: the index is left unchanged, so the
      loop head is re-tested at the next step;
    - [StepIn] with a non-empty body: the index steps into the body's
      first instruction [q ++ [i; 0]]. *)
Theorem step_driver_moves : forall P q full i inst rt rt' a,
  body_at P q = Some full -> nth_error full i = Some inst ->
  exec_one inst rt = (rt', inr a) ->
  StepRunner.step (StepSim.at_ P rt (Some (q ++ [i]))) =
  StepRunner.StepOk (StepSim.at_ P rt'
    (match a with
     | Next => next_pos q full i
     | StepIn [] => Some (q ++ [i])
     | StepIn (_ :: _) => Some ((q ++ [i]) ++ [0%nat])
     end)).
Proof.
  intros P q full i inst rt rt' a Hb Hn He.
  destruct a as [|[|x xs]].
  - exact (StepSim.step_next P q full i inst rt rt' Hb Hn He).
  - exact (StepSim.step_enter_empty P q full i inst rt rt' Hb Hn He).
  - exact (StepSim.step_enter P q full i inst rt rt' x xs Hb Hn He).
Qed.

(** C6 counterexample.  In [[DAdd(1), UntilZero([])]], after the first
    step the index is [[1]] and the loop's cell is 1, so executing the
    loop signals [StepIn] with an empty body; the index stays [[1]] and
    the runner keeps running, instead of advancing (which would finish
    the program, [[1]] being the last top-level instruction). *)
Lemma empty_body_index_unchanged :
  match StepRunner.steps 1 (StepRunner.new [DAdd 1; UntilZero []] [] vec_sink) with
  | StepRunner.StepOk sr1 =>
      StepRunner.index sr1 = Some [1%nat] /\
      snd (exec_one (UntilZero []) (StepRunner.runtime sr1)) = inr (StepIn []) /\
      next_pos [] [DAdd 1; UntilZero []] 1 = None /\
      match StepRunner.step sr1 with
      | StepRunner.StepOk sr2 =>
          StepRunner.index sr2 = Some [1%nat] /\ StepRunner.is_running sr2 = true
      | _ => False
      end
  | _ => False
  end.
Proof. vm_compute. repeat split. Qed.

(** C3.  Run folding.  Let the parser (plain [parse_internal] or
    annotated [parse_internal_fat]) be at the start of a loop iteration
    whose upcoming tokens are a non-empty run of increment/decrement
    tokens of one axis, followed by a token [t] of another kind (or the
    end of the stream).  Then one iteration consumes the whole run,
    pushes [t] back, and appends exactly one [PAdd]/[DAdd] carrying the
    algebraic sum of the +1/-1 contributions, or nothing when the sum is
    zero; the annotated parser appends exactly one instruction carrying
    the run's tokens, a [Nop] when the sum is zero.  Consequently every
    [PAdd] and [DAdd] of a successfully parsed program, at any depth, has
    a non-zero delta.  (The fuel bound only has to exceed the length of
    the run.) *)
Theorem xadd_runs_fold {St : Type} `{TokenStream St} :
  forall ax f ctx run s1 s2 t top acc facc,
  run <> [] -> forallb (on_axis ax) run = true -> ctx_yields ctx run s1 ->
  next s1 = (s2, inr t) -> on_axis ax t = false -> (length run <= f)%nat ->
  parse_loop (S f) ctx top acc
  = parse_loop f {| token_stream := s2; unget_buf := Some t |} top
      (if run_sum ax run =? 0 then acc else acc ++ [axis_gen ax (run_sum ax run)])
  /\ parse_loop_fat (S f) ctx top facc
  = parse_loop_fat f {| token_stream := s2; unget_buf := Some t |} top
      (facc ++ [mkFat (if run_sum ax run =? 0 then FNop else axis_fgen ax (run_sum ax run)) run])
  /\ (forall fuel src c p, parse_str fuel src = POk c p -> all_nonzero p = true).
Proof.
  intros ax f ctx run s1 s2 t top acc facc Hne Hall Hy Hn Ht Hlen.
  split; [|split].
  - exact (parse_loop_fold ax f ctx run s1 s2 t top acc Hne Hall Hy Hn Ht Hlen).
  - exact (parse_loop_fat_fold ax f ctx run s1 s2 t top facc Hne Hall Hy Hn Ht Hlen).
  - intros fuel src c p E. exact (parse_loop_nonzero _ _ _ [] _ _ eq_refl E).
Qed.

Lemma xadd_runs_fold_witness :
  parse_loop 4
    (ctx_new {| items := [inr (sample_token DInc [43] 0); inr (sample_token DInc [43] 1);
                          inr (sample_token DDec [45] 2); inr (sample_token Token.Output [46] 3)];
                last_pos_in_chars := 4 |}) true []
  = parse_loop 3
      {| token_stream := {| items := []; last_pos_in_chars := 4 |};
         unget_buf := Some (sample_token Token.Output [46] 3) |} true [DAdd 1].
Proof.
  etransitivity.
  - apply (proj1 (@xadd_runs_fold ListStream ListStream_TokenStream DataAxis 3
      (ctx_new {| items := [inr (sample_token DInc [43] 0); inr (sample_token DInc [43] 1);
                            inr (sample_token DDec [45] 2); inr (sample_token Token.Output [46] 3)];
                  last_pos_in_chars := 4 |})
      [sample_token DInc [43] 0; sample_token DInc [43] 1; sample_token DDec [45] 2]
      {| items := [inr (sample_token Token.Output [46] 3)]; last_pos_in_chars := 4 |}
      {| items := []; last_pos_in_chars := 4 |}
      (sample_token Token.Output [46] 3) true [] []
      ltac:(discriminate) eq_refl
      ltac:(cbn; repeat (eexists; split; [reflexivity|]); reflexivity)
      eq_refl eq_refl ltac:(cbn; lia))).
  - reflexivity.
Defined.

(** C7.  Loop-structure errors, for every token stream: when the next
    token of a parsing iteration is a [LoopTail] at top level, parsing
    fails with [UnexpectedEndOfLoop] at that token's char position; when
    it is the end of the stream inside a loop body, parsing fails with
    [UnexpectedEndOfFile] at the end-of-stream char position; at top
    level the end of the stream returns the instructions accumulated so
    far.  Both the plain and the annotated parser behave so, and an error
    raised inside a loop body is the error of the enclosing call (so an
    unterminated loop makes [parse_str] fail with [UnexpectedEndOfFile]). *)
Theorem parse_loop_end_cases {St : Type} `{TokenStream St} :
  forall f ctx ctx1 info acc facc,
  next_token_info ctx = (ctx1, inr info) ->
  (info_token_type info = Some LoopTail ->
     parse_loop (S f) ctx true acc = PErr (UnexpectedEndOfLoop (pos_in_chars info)) /\
     parse_loop_fat (S f) ctx true facc = PErr (UnexpectedEndOfLoop (pos_in_chars info))) /\
  (info_token_type info = None ->
     parse_loop (S f) ctx false acc = PErr (UnexpectedEndOfFile (pos_in_chars info)) /\
     parse_loop_fat (S f) ctx false facc = PErr (UnexpectedEndOfFile (pos_in_chars info)) /\
     parse_loop (S f) ctx true acc = POk ctx1 acc /\
     parse_loop_fat (S f) ctx true facc = POk ctx1 (facc, None)) /\
  (info_token_type info = Some LoopHead -> forall e top,
     parse_loop f ctx1 false [] = PErr e -> parse_loop (S f) ctx top acc = PErr e).
Proof.
  intros f ctx ctx1 info acc facc E.
  cbn [parse_loop parse_loop_fat]. rewrite E. cbn beta iota.
  split; [|split].
  - intros T. rewrite T. split; reflexivity.
  - intros T. rewrite T. repeat split.
  - intros T e top Ee. rewrite T, Ee. reflexivity.
Qed.

Lemma parse_loop_end_cases_witness :
  parse_loop 1 (ctx_new {| items := [inr (sample_token LoopTail [93] 5)]; last_pos_in_chars := 6 |})
    true [] = PErr (UnexpectedEndOfLoop 5).
Proof.
  apply (proj1 (proj1 (@parse_loop_end_cases ListStream ListStream_TokenStream 0
    (ctx_new {| items := [inr (sample_token LoopTail [93] 5)]; last_pos_in_chars := 6 |})
    {| token_stream := {| items := []; last_pos_in_chars := 6 |}; unget_buf := None |}
    (sample_token LoopTail [93] 5) [] [] eq_refl) eq_refl)).
Defined.

(** C8.  For every token stream: when the annotated parser succeeds, the
    plain parser succeeds on the same stream with exactly the program
    [as_program] makes of the annotated tree (no-ops dropped, loop bodies
    converted recursively), so running either gives the same outcome and
    output on every input, with [Runner::run] and with
    [runtime::run_with_memsize]; and conversely every successful plain
    parse has an annotated counterpart converting to it. *)
Theorem fat_program_agrees {St : Type} `{TokenStream St} : forall f s,
  (forall c fp, parse_str_fat f s = POk c fp ->
     exists p, parse_str f s = POk c p /\ as_program fp = p /\
       forall fuel inp out memsize,
         Runner.run fuel (as_program fp) inp out memsize = Runner.run fuel p inp out memsize /\
         Legacy.run_with_memsize fuel (as_program fp) inp out memsize
         = Legacy.run_with_memsize fuel p inp out memsize) /\
  (forall c p, parse_str f s = POk c p ->
     exists fp, parse_str_fat f s = POk c fp /\ as_program fp = p).
Proof.
  intros f s. unfold parse_str_fat, parse_str.
  pose proof (parse_lockstep f (ctx_new s) true []) as X.
  change (as_program []) with (@nil Instruction) in X.
  destruct (parse_loop_fat f (ctx_new s) true []) as [c1 [ifp last]| | |];
    destruct (parse_loop f (ctx_new s) true []) as [c2 ip| | |];
    cbn [parse_rel] in X; try contradiction; cbn [pbind];
    (split; [intros c fp E | intros c p E]); try discriminate.
  - destruct X as (<- & Hp & ->). inversion E; subst. exists (as_program fp).
    repeat split.
  - destruct X as (<- & Hp & ->). inversion E; subst. exists ifp. split; reflexivity.
Qed.

Lemma fat_program_agrees_witness :
  parse_str 10 {| items := [inr (sample_token DInc [43] 0); inr (sample_token DDec [45] 1);
                            inr (sample_token Token.Output [46] 2)]; last_pos_in_chars := 3 |}
  = POk {| token_stream := {| items := []; last_pos_in_chars := 3 |}; unget_buf := None |}
        [Output].
Proof.
  destruct (proj1 (@fat_program_agrees ListStream ListStream_TokenStream 10
    {| items := [inr (sample_token DInc [43] 0); inr (sample_token DDec [45] 1);
                 inr (sample_token Token.Output [46] 2)]; last_pos_in_chars := 3 |})
    {| token_stream := {| items := []; last_pos_in_chars := 3 |}; unget_buf := None |}
    [mkFat FNop [sample_token DInc [43] 0; sample_token DDec [45] 1];
     mkFat FOutput [sample_token Token.Output [46] 2]] eq_refl) as [p [E [Hp _]]].
  rewrite E. rewrite <- Hp. reflexivity.
Defined.

(** C5.  Longest match in the simple tokenizer.  Take a stream of a
    tokenizer built by [SimpleTokenSpec::to_tokenizer], whose remaining
    text is [rest], and a registered symbol [b] (non-empty) occurring at
    char offset [k] of [rest], no symbol starting at any earlier offset.
    Then [next] emits, at char position [k] further on, the token of a
    registered symbol that also starts there and is at least as long as
    [b], hence never a strictly shorter registered symbol (such as "+"
    against "++"), and the stream continues right after that whole
    symbol. *)
Theorem longest_symbol_wins : forall spec st rest k b,
  Simple.stream_table st = Simple.token_table (Simple.to_tokenizer spec) ->
  Simple.str_from (Simple.source st) (Simple.pos st) = Some rest ->
  (forall i, (i < k)%nat -> Simple.find_token_at (skipn i rest) (Simple.stream_table st) = None) ->
  In b (Simple.stream_table st) -> Simple.def_token b <> [] ->
  Simple.starts_with (skipn k rest) (Simple.def_token b) = true ->
  exists d st',
    next st = (st', inr {| token := Some {| token_type := Simple.def_token_type d;
                                            token_str := Simple.def_token d |};
                          pos_in_chars := Simple.stream_pos_in_chars st + k |})
    /\ In d (Simple.stream_table st)
    /\ Simple.starts_with (skipn k rest) (Simple.def_token d) = true
    /\ (List.length (Simple.def_token b) <= List.length (Simple.def_token d))%nat
    /\ (forall a, In a (Simple.stream_table st) ->
          (List.length (Simple.def_token a) < List.length (Simple.def_token b))%nat ->
          Simple.def_token d <> Simple.def_token a)
    /\ Simple.stream_pos_in_chars st'
       = (Simple.stream_pos_in_chars st + k + List.length (Simple.def_token d))%nat
    /\ Simple.str_from (Simple.source st) (Simple.pos st')
       = Some (skipn (k + List.length (Simple.def_token d)) rest).
Proof.
  intros spec st rest k b Htab Hfrom Hbefore Hb Hne Hpre.
  destruct (Simple.find_token_at (skipn k rest) (Simple.stream_table st)) as [d|] eqn:Hd.
  2: { exfalso. unfold Simple.find_token_at in Hd.
       pose proof (find_none _ _ Hd b Hb) as X. cbv beta in X. congruence. }
  pose proof Hd as Hd'. unfold Simple.find_token_at in Hd'.
  destruct (find_some _ _ Hd') as [Hdin Hdpre].
  assert (Hk : (k < List.length rest)%nat).
  { destruct (Nat.lt_ge_cases k (List.length rest)) as [Hl|Hl]; [exact Hl|].
    rewrite skipn_all2 in Hpre by exact Hl.
    destruct (Simple.def_token b); [congruence|discriminate]. }
  assert (Hcd : Simple.char_count d = List.length (Simple.def_token d))
    by (apply (SimpleFacts.table_char_count spec); rewrite <- Htab; exact Hdin).
  assert (Hcb : Simple.char_count b = List.length (Simple.def_token b))
    by (apply (SimpleFacts.table_char_count spec); rewrite <- Htab; exact Hb).
  assert (Hlong : (Simple.char_count b <= Simple.char_count d)%nat).
  { rewrite Htab in Hd', Hb.
    exact (SimpleFacts.find_longest _ _ d b (SimpleFacts.table_sorted spec) Hd' Hb Hpre). }
  pose proof (SimpleFacts.starts_with_app _ _ Hdpre) as Hsplit.
  assert (Hup : Simple.str_upto (skipn k rest) (str_len (Simple.def_token d))
                = Simple.def_token d)
    by (rewrite Hsplit at 1; apply SimpleFacts.str_upto_app).
  change (next st) with (Simple.stream_next st). unfold Simple.stream_next.
  rewrite Hfrom, (SimpleFacts.scan_first _ k rest 0 0 d Hbefore Hd Hk), Hup.
  eexists d, _. split; [reflexivity|].
  repeat split.
  - exact Hdin.
  - exact Hdpre.
  - lia.
  - intros a Ha Hlt Heq. apply (f_equal (@List.length Z)) in Heq. lia.
  - cbn [Simple.stream_pos_in_chars]. lia.
  - cbn [Simple.pos Simple.source].
    apply (SimpleFacts.str_from_trans _ _ (skipn k rest)).
    + apply (SimpleFacts.str_from_trans _ _ rest); [exact Hfrom|].
      cbn [Nat.add]. rewrite <- (firstn_skipn k rest) at 1. apply SimpleFacts.str_from_app.
    + rewrite Hsplit at 1. rewrite SimpleFacts.str_from_app, skipn_skipn, Nat.add_comm.
      reflexivity.
Qed.

Lemma longest_symbol_wins_witness :
  exists d st',
    next (Simple.token_stream_of (Simple.to_tokenizer
            (Simple.mkSpec [43; 43] [60] [43] [45] [46] [44] [91] [93]))
            [43; 43; 46; 46; 46; 44])
    = (st', inr {| token := Some {| token_type := Simple.def_token_type d;
                                    token_str := Simple.def_token d |};
                   pos_in_chars := 0 |})
    /\ (2 <= List.length (Simple.def_token d))%nat.
Proof.
  destruct (longest_symbol_wins (Simple.mkSpec [43; 43] [60] [43] [45] [46] [44] [91] [93])
    (Simple.token_stream_of (Simple.to_tokenizer
       (Simple.mkSpec [43; 43] [60] [43] [45] [46] [44] [91] [93])) [43; 43; 46; 46; 46; 44])
    [43; 43; 46; 46; 46; 44] 0 (Simple.SimpleTokenDef_new [43; 43] PInc)
    eq_refl eq_refl ltac:(intros i Hi; lia) ltac:(cbv; tauto) ltac:(discriminate) eq_refl)
    as (d & st' & Hnext & _ & _ & Hlen & _).
  exists d, st'. split; [exact Hnext | exact Hlen].
Defined.

Lemma memory_access_policy_witness :
  get_mut (Memory_new (Fixed 3%nat)) 1 = inr (Memory_new (Fixed 3%nat), LRight 1%nat) /\
  get_mut (Memory_new (Fixed 3%nat)) 3 = inl (OutOfMemoryBounds 3).
Proof.
  destruct (proj1 (proj1 memory_access_policy (Memory_new (Fixed 3%nat)) 1
    ltac:(vm_compute; reflexivity)) 3%nat eq_refl) as [H1 _].
  destruct (proj1 (proj1 memory_access_policy (Memory_new (Fixed 3%nat)) 3
    ltac:(vm_compute; reflexivity)) 3%nat eq_refl) as [_ H2].
  split; [apply H1; lia | apply H2; lia].
Defined.

Lemma dadd_wraps_mod_256_witness :
  exec_one (DAdd 300) (Runtime_new [] vec_sink (Fixed 4%nat))
  = (set_memory (Runtime_new [] vec_sink (Fixed 4%nat))
       (store (Memory_new (Fixed 4%nat)) (LRight 0%nat)
          ((load (Memory_new (Fixed 4%nat)) (LRight 0%nat) + 300) mod 256)), inr Next).
Proof.
  exact (proj1 dadd_wraps_mod_256 (Runtime_new [] vec_sink (Fixed 4%nat)) 300
    (Memory_new (Fixed 4%nat)) (LRight 0%nat) ltac:(vm_compute; reflexivity)).
Defined.

Lemma step_after_finish_is_noop_witness :
  StepRunner.step (StepRunner.new [] [] vec_sink) = StepRunner.StepOk (StepRunner.new [] [] vec_sink).
Proof.
  exact (step_after_finish_is_noop (StepRunner.new [] [] vec_sink) eq_refl).
Defined.

Lemma step_driver_moves_witness :
  StepRunner.step (StepSim.at_ [DAdd 1; Output] (Runtime_new [] vec_sink (Fixed 4%nat)) (Some [0%nat]))
  = StepRunner.StepOk (StepSim.at_ [DAdd 1; Output]
      (fst (exec_one (DAdd 1) (Runtime_new [] vec_sink (Fixed 4%nat)))) (Some [1%nat])).
Proof.
  exact (step_driver_moves [DAdd 1; Output] [] [DAdd 1; Output] 0%nat (DAdd 1)
    (Runtime_new [] vec_sink (Fixed 4%nat)) (fst (exec_one (DAdd 1) (Runtime_new [] vec_sink (Fixed 4%nat))))
    Next eq_refl eq_refl ltac:(vm_compute; reflexivity)).
Defined.

(* ------------------------------------------------------------------ *)
(** The value an address reads in a memory, [None] where the access
    is refused. *)
Definition mem_value (m : Memory) (b : Z) : option Z :=
  if 0 <=? b then
    match size m with
    | Fixed _ =>
        if (length (right_data m) <=? Z.to_nat b)%nat then None
        else Some (nth (Z.to_nat b) (right_data m) 0)
    | _ => Some (nth (Z.to_nat b) (right_data m) 0)
    end
  else
    match size m with
    | BothInfinite => Some (nth (Z.to_nat (- (b + 1))) (left_data m) 0)
    | _ => None
    end.

Lemma nth_vec_resize : forall v n j,
  (length v <= n)%nat -> nth j (vec_resize v n 0) 0 = nth j v 0.
Proof.
  intros v n j H. rewrite vec_resize_grow by exact H.
  destruct (Nat.lt_ge_cases j (length v)) as [Hj|Hj].
  - apply app_nth1, Hj.
  - rewrite app_nth2 by exact Hj. rewrite nth_repeat. symmetry. apply nth_overflow, Hj.
Qed.

Lemma data_at_value : forall rt b, data_at rt b = mem_value (memory rt) b.
Proof.
  intros [inp out [sz r lf] p] b. unfold data_at, Runtime_get_data_at_mut, mem_value, get_mut.
  cbn [memory size right_data left_data].
  destruct (0 <=? b).
  - destruct (length r <=? Z.to_nat b)%nat eqn:E.
    + apply Nat.leb_le in E.
      destruct sz; cbn [load right_data left_data memory set_memory option_map];
        try reflexivity; rewrite nth_vec_resize by lia; reflexivity.
    + destruct sz; reflexivity.
  - destruct sz; try reflexivity.
    destruct (length lf <=? Z.to_nat (- (b + 1)))%nat eqn:E; [|reflexivity].
    apply Nat.leb_le in E. cbn [load right_data left_data memory set_memory option_map].
    rewrite nth_vec_resize by lia. reflexivity.
Qed.

Lemma get_mut_value : forall m a m' l b,
  get_mut m a = inr (m', l) -> mem_value m' b = mem_value m b.
Proof.
  intros [sz r lf] a m' l b H. unfold get_mut in H. cbn [size right_data left_data] in H.
  destruct (0 <=? a).
  - destruct (length r <=? Z.to_nat a)%nat eqn:E.
    + apply Nat.leb_le in E. destruct sz; inversion H; subst; clear H;
        unfold mem_value; cbn [size right_data left_data];
        destruct (0 <=? b); try reflexivity; rewrite nth_vec_resize by lia; reflexivity.
    + inversion H; subst. reflexivity.
  - destruct sz; try discriminate.
    destruct (length lf <=? Z.to_nat (- (a + 1)))%nat eqn:E; inversion H; subst; [|reflexivity].
    apply Nat.leb_le in E. unfold mem_value; cbn [size right_data left_data].
    destruct (0 <=? b); [reflexivity|]. rewrite nth_vec_resize by lia. reflexivity.
Qed.

(** Where [get_mut] points: the cell of [a], inside the buffer. *)
Lemma get_mut_loc : forall m a m' l,
  get_mut m a = inr (m', l) ->
  size m' = size m /\
  ((0 <= a /\ l = LRight (Z.to_nat a) /\ (Z.to_nat a < length (right_data m'))%nat) \/
   (a < 0 /\ size m = BothInfinite /\ l = LLeft (Z.to_nat (- (a + 1))) /\
    (Z.to_nat (- (a + 1)) < length (left_data m'))%nat)).
Proof.
  intros [sz r lf] a m' l H. unfold get_mut in H. cbn [size right_data left_data] in *.
  destruct (0 <=? a) eqn:Ea.
  - apply Z.leb_le in Ea. destruct (length r <=? Z.to_nat a)%nat eqn:E.
    + apply Nat.leb_le in E. destruct sz; inversion H; subst; clear H; split; auto;
        left; cbn [right_data]; unfold vec_resize; rewrite length_app, repeat_length;
        rewrite firstn_all2 by lia; repeat split; auto; lia.
    + apply Nat.leb_gt in E. inversion H; subst. split; auto.
  - apply Z.leb_gt in Ea. destruct sz; try discriminate.
    destruct (length lf <=? Z.to_nat (- (a + 1)))%nat eqn:E; inversion H; subst; clear H;
      split; auto; right; cbn [left_data].
    + apply Nat.leb_le in E. unfold vec_resize. rewrite length_app, repeat_length.
      rewrite firstn_all2 by lia. repeat split; auto; lia.
    + apply Nat.leb_gt in E. repeat split; auto.
Qed.

Lemma nth_list_set : forall v i j x,
  nth j (list_set v i x) 0 = if Nat.eqb j i then (if (i <? length v)%nat then x else 0)
                             else nth j v 0.
Proof.
  induction v as [|y v IH]; intros i j x.
  - destruct i, j; simpl; try reflexivity. destruct (Nat.eqb j i); reflexivity.
  - destruct i as [|i], j as [|j]; cbn [list_set nth length]; try reflexivity.
    rewrite IH. reflexivity.
Qed.

Lemma mem_value_store : forall m a m' l x b,
  get_mut m a = inr (m', l) ->
  mem_value (store m' l x) b = if a =? b then Some x else mem_value m' b.
Proof.
  intros m a m' l x b H. destruct (get_mut_loc _ _ _ _ H) as [Hs [(Ha & -> & Hlt)|(Ha & Hb & -> & Hlt)]];
    unfold mem_value, store; cbn [size right_data left_data].
  - destruct (a =? b) eqn:E.
    + apply Z.eqb_eq in E. subst b.
      replace (0 <=? a) with true by (symmetry; apply Z.leb_le; lia).
      rewrite length_list_set, nth_list_set, Nat.eqb_refl.
      replace (Z.to_nat a <? length (right_data m'))%nat with true by (symmetry; apply Nat.ltb_lt; lia).
      destruct (size m'); try reflexivity.
      replace (length (right_data m') <=? Z.to_nat a)%nat with false
        by (symmetry; apply Nat.leb_gt; lia). reflexivity.
    + apply Z.eqb_neq in E. destruct (0 <=? b) eqn:Eb; [|reflexivity].
      apply Z.leb_le in Eb. rewrite length_list_set, nth_list_set.
      replace (Nat.eqb (Z.to_nat b) (Z.to_nat a)) with false
        by (symmetry; apply Nat.eqb_neq; lia). reflexivity.
  - rewrite Hs, Hb. destruct (a =? b) eqn:E.
    + apply Z.eqb_eq in E. subst b.
      replace (0 <=? a) with false by (symmetry; apply Z.leb_gt; lia).
      rewrite nth_list_set, Nat.eqb_refl.
      replace (Z.to_nat (- (a + 1)) <? length (left_data m'))%nat with true
        by (symmetry; apply Nat.ltb_lt; lia). reflexivity.
    + apply Z.eqb_neq in E. destruct (0 <=? b) eqn:Eb; [reflexivity|].
      apply Z.leb_gt in Eb. rewrite nth_list_set.
      replace (Nat.eqb (Z.to_nat (- (b + 1))) (Z.to_nat (- (a + 1)))) with false
        by (symmetry; apply Nat.eqb_neq; lia). reflexivity.
Qed.

Lemma data_at_set_memory : forall rt m b, data_at (set_memory rt m) b = mem_value m b.
Proof. intros. rewrite data_at_value. reflexivity. Qed.

Lemma get_mut_read : forall rt a m l,
  get_mut (memory rt) a = inr (m, l) -> mem_value m a = Some (load m l).
Proof.
  intros rt a m l H. rewrite (get_mut_value _ _ _ _ _ H), <- data_at_value.
  unfold data_at, Runtime_get_data_at_mut. rewrite H. reflexivity.
Qed.

(** Writing [x] through the location [get_mut] hands out for address
    [a] changes what address [a] reads to [x] and leaves every other
    address reading what it read before. *)
Theorem store_then_read : forall rt a m l x b,
  get_mut (memory rt) a = inr (m, l) ->
  data_at (set_memory rt (store m l x)) b = if a =? b then Some x else data_at rt b.
Proof.
  intros rt a m l x b H. rewrite data_at_set_memory, (mem_value_store _ _ _ _ x b H).
  destruct (a =? b); [reflexivity|]. rewrite (get_mut_value _ _ _ _ _ H), data_at_value.
  reflexivity.
Qed.

(** [Runtime::get_data_at_mut] may grow the memory, but no address
    reads differently afterwards. *)
Theorem access_keeps_contents : forall rt a b,
  data_at (fst (Runtime_get_data_at_mut rt a)) b = data_at rt b.
Proof.
  intros rt a b. unfold Runtime_get_data_at_mut at 1.
  destruct (get_mut (memory rt) a) as [e|[m l]] eqn:E; [reflexivity|]. cbn [fst].
  rewrite data_at_set_memory, (get_mut_value _ _ _ _ _ E), data_at_value. reflexivity.
Qed.

(** Every address a fresh runtime can read holds 0. *)
Theorem new_runtime_reads_zero : forall inp out sz b v,
  data_at (Runtime_new inp out sz) b = Some v -> v = 0.
Proof.
  intros inp out sz b v H. rewrite data_at_value in H. unfold mem_value in H.
  cbn [Runtime_new memory Memory_new size right_data left_data] in H.
  destruct (0 <=? b); destruct sz; try discriminate;
    try (destruct (_ <=? _)%nat; [discriminate|]); inversion H; subst;
    try (rewrite nth_repeat; reflexivity); destruct (Z.to_nat _); reflexivity.
Qed.


(** When an instruction fails with [OutOfMemoryBounds(a)], [a] is the
    pointer, the runtime is unchanged and [a] is an address the memory
    refuses. *)
Theorem out_of_bounds_is_pointer : forall inst rt rt' a,
  exec_one inst rt = (rt', inl (OutOfMemoryBounds a)) ->
  a = pointer rt /\ rt' = rt /\ data_at rt a = None.
Proof.
  intros inst rt rt' a H.
  destruct inst as [o|o| | |sub]; cbn [exec_one] in H; [discriminate| | | |];
    unfold add_data, output_byte, input_byte in H;
    destruct (get_mut (memory rt) (pointer rt)) as [e|[m l]] eqn:E;
    try (destruct (write_byte _ _); discriminate);
    try (destruct (input rt) as [|[x| |] rest]; discriminate);
    try (destruct (negb _); discriminate);
    injection H as H1 H2; subst rt' e.
  all: assert (Ha : a = pointer rt)
         by (unfold get_mut in E; destruct (0 <=? pointer rt);
             [destruct (_ <=? _)%nat; [destruct (size (memory rt)); congruence|discriminate]
             |destruct (size (memory rt)); try congruence; destruct (_ <=? _)%nat; discriminate]);
       subst a; unfold data_at, Runtime_get_data_at_mut; rewrite E; auto.
Qed.

(** A run that completes or fails only appends to the output and only
    consumes a prefix of the input. *)
Theorem run_streams_extend : forall f rt l rt',
  (Runner.run_internal f rt l = Done rt' \/ exists e, Runner.run_internal f rt l = Fail rt' e) ->
  (exists sfx, written (output rt') = written (output rt) ++ sfx) /\
  (exists pre, input rt = pre ++ input rt').
Proof.
  intros f rt l rt' [H|[e H]]; pose proof (proj1 (runner_streams f) rt l _ H) as X; exact X.
Qed.

Lemma runner_fuel_mono_all : forall f,
  (forall rt l o, Runner.run_internal f rt l = o -> o <> OutOfFuel ->
     forall f', (f <= f')%nat -> Runner.run_internal f' rt l = o) /\
  (forall rt inst o, Runner.run_inst f rt inst = o -> o <> OutOfFuel ->
     forall f', (f <= f')%nat -> Runner.run_inst f' rt inst = o).
Proof.
  induction f as [|f [IHl IHi]]; split; intros rt x o H Hn f' Hle;
    [subst; simpl in Hn; congruence|subst; simpl in Hn; congruence| |].
  - destruct f' as [|f']; [lia|]. cbn [Runner.run_internal] in *.
    destruct x as [|inst rest]; [exact H|].
    destruct (Runner.run_inst f rt inst) as [rt1|rt1 e|] eqn:E.
    + rewrite (IHi _ _ _ E ltac:(discriminate) f' ltac:(lia)).
      apply (IHl _ _ _ H Hn f'). lia.
    + rewrite (IHi _ _ _ E ltac:(discriminate) f' ltac:(lia)). exact H.
    + subst. congruence.
  - destruct f' as [|f']; [lia|]. cbn [Runner.run_inst] in *.
    destruct (exec_one x rt) as [rt1 [e|[|sub]]]; try exact H.
    destruct (Runner.run_internal f rt1 sub) as [rt2|rt2 e|] eqn:E.
    + rewrite (IHl _ _ _ E ltac:(discriminate) f' ltac:(lia)).
      apply (IHi _ _ _ H Hn f'). lia.
    + rewrite (IHl _ _ _ E ltac:(discriminate) f' ltac:(lia)). exact H.
    + subst. congruence.
Qed.

Lemma run_internal_mono_all : forall f f' rt l o,
  Runner.run_internal f rt l = o -> o <> OutOfFuel -> (f <= f')%nat ->
  Runner.run_internal f' rt l = o.
Proof. intros. eapply (proj1 (runner_fuel_mono_all f)); eauto. Qed.

Lemma run_inst_mono_all : forall f f' rt i o,
  Runner.run_inst f rt i = o -> o <> OutOfFuel -> (f <= f')%nat ->
  Runner.run_inst f' rt i = o.
Proof. intros. eapply (proj2 (runner_fuel_mono_all f)); eauto. Qed.

(** Running [l1 ++ l2] is running [l1], then [l2] from where [l1]
    stopped; a failure in [l1] ends the run. *)
Theorem run_app : forall l1 l2 rt,
  (forall rt2, (exists f, Runner.run_internal f rt (l1 ++ l2) = Done rt2) <->
     exists rt1, (exists f, Runner.run_internal f rt l1 = Done rt1) /\
                 (exists f, Runner.run_internal f rt1 l2 = Done rt2)) /\
  (forall rt2 e, (exists f, Runner.run_internal f rt (l1 ++ l2) = Fail rt2 e) <->
     (exists f, Runner.run_internal f rt l1 = Fail rt2 e) \/
     exists rt1, (exists f, Runner.run_internal f rt l1 = Done rt1) /\
                 (exists f, Runner.run_internal f rt1 l2 = Fail rt2 e)).
Proof.
  induction l1 as [|x l1 IH]; intros l2 rt.
  - split; intros rt2; [|intros e]; split.
    + intros H. exists rt. split; [exists 1%nat; reflexivity|exact H].
    + intros (rt1 & [f H1] & H2). apply run_internal_nil in H1 as [-> _]. exact H2.
    + intros H. right. exists rt. split; [exists 1%nat; reflexivity|exact H].
    + intros [[f H]|(rt1 & [f H1] & H2)]; [destruct f; discriminate|].
      apply run_internal_nil in H1 as [-> _]. exact H2.
  - split; intros rt2; [|intros e]; split.
    + intros [[|f] H]; [discriminate|]. cbn [app Runner.run_internal] in H.
      destruct (Runner.run_inst f rt x) as [r1| |] eqn:E1; try discriminate.
      destruct (proj1 (proj1 (IH l2 r1) rt2) (ex_intro _ f H)) as (rt1 & [fa Ha] & Hb).
      exists rt1. split; [|exact Hb]. exists (S (f + fa)). cbn [Runner.run_internal].
      rewrite (run_inst_mono_all f (f + fa) _ _ _ E1 ltac:(discriminate) ltac:(lia)).
      exact (run_internal_mono_all fa (f + fa) _ _ _ Ha ltac:(discriminate) ltac:(lia)).
    + intros (rt1 & [fa Ha] & [fb Hb]). destruct fa as [|fa]; [discriminate|].
      cbn [Runner.run_internal] in Ha.
      destruct (Runner.run_inst fa rt x) as [r1| |] eqn:E1; try discriminate.
      destruct (proj2 (proj1 (IH l2 r1) rt2) (ex_intro _ rt1 (conj (ex_intro _ fa Ha) (ex_intro _ fb Hb))))
        as [fc Hc].
      exists (S (fa + fc)). cbn [app Runner.run_internal].
      rewrite (run_inst_mono_all fa (fa + fc) _ _ _ E1 ltac:(discriminate) ltac:(lia)).
      exact (run_internal_mono_all fc (fa + fc) _ _ _ Hc ltac:(discriminate) ltac:(lia)).
    + intros [[|f] H]; [discriminate|]. cbn [app Runner.run_internal] in H.
      destruct (Runner.run_inst f rt x) as [r1|r1 e1|] eqn:E1; try discriminate.
      * destruct (proj1 (proj2 (IH l2 r1) rt2 e) (ex_intro _ f H)) as [[fa Ha]|(rt1 & [fa Ha] & Hb)].
        -- left. exists (S (f + fa)). cbn [Runner.run_internal].
           rewrite (run_inst_mono_all f (f + fa) _ _ _ E1 ltac:(discriminate) ltac:(lia)).
           exact (run_internal_mono_all fa (f + fa) _ _ _ Ha ltac:(discriminate) ltac:(lia)).
        -- right. exists rt1. split; [|exact Hb]. exists (S (f + fa)). cbn [Runner.run_internal].
           rewrite (run_inst_mono_all f (f + fa) _ _ _ E1 ltac:(discriminate) ltac:(lia)).
           exact (run_internal_mono_all fa (f + fa) _ _ _ Ha ltac:(discriminate) ltac:(lia)).
      * left. exists (S f). cbn [Runner.run_internal]. rewrite E1. exact H.
    + intros [[[|fa] Ha]|(rt1 & [[|fa] Ha] & [fb Hb])]; try discriminate;
        cbn [Runner.run_internal] in Ha;
        destruct (Runner.run_inst fa rt x) as [r1|r1 e1|] eqn:E1; try discriminate.
      * destruct (proj2 (proj2 (IH l2 r1) rt2 e) (or_introl (ex_intro _ fa Ha))) as [fc Hc].
        exists (S (fa + fc)). cbn [app Runner.run_internal].
        rewrite (run_inst_mono_all fa (fa + fc) _ _ _ E1 ltac:(discriminate) ltac:(lia)).
        exact (run_internal_mono_all fc (fa + fc) _ _ _ Hc ltac:(discriminate) ltac:(lia)).
      * exists (S fa). cbn [app Runner.run_internal]. rewrite E1. exact Ha.
      * destruct (proj2 (proj2 (IH l2 r1) rt2 e)
                    (or_intror (ex_intro _ rt1 (conj (ex_intro _ fa Ha) (ex_intro _ fb Hb)))))
          as [fc Hc].
        exists (S (fa + fc)). cbn [app Runner.run_internal].
        rewrite (run_inst_mono_all fa (fa + fc) _ _ _ E1 ltac:(discriminate) ltac:(lia)).
        exact (run_internal_mono_all fc (fa + fc) _ _ _ Hc ltac:(discriminate) ltac:(lia)).
Qed.

(** A loop [UntilZero] that completes leaves the cell under the
    pointer at 0. *)
Theorem loop_exit_cell_zero : forall f rt sub rt',
  Runner.run_inst f rt (UntilZero sub) = Done rt' -> data_at rt' (pointer rt') = Some 0.
Proof.
  induction f as [|f IH]; intros rt sub rt' H; [discriminate|].
  cbn [Runner.run_inst exec_one] in H.
  destruct (get_mut (memory rt) (pointer rt)) as [e|[m l]] eqn:E; [discriminate|].
  destruct (negb (load m l =? 0)) eqn:Ez.
  - destruct (Runner.run_internal f (set_memory rt m) sub) as [rt2| |]; try discriminate.
    exact (IH _ _ _ H).
  - inversion H; subst. rewrite data_at_set_memory. cbn [pointer set_memory].
    rewrite (get_mut_read _ _ _ _ E). apply negb_false_iff, Z.eqb_eq in Ez. rewrite Ez.
    reflexivity.
Qed.




Module StepSafety.
Import StepRunner StepRunnerAccess.

(** The runners a user can reach through the public API: a new runner,
    then calls of [step] (also after an error) and writes through
    [get_data_at_mut]. *)
Inductive reachable : StepRunner -> Prop :=
| reach_new : forall p inp out sz, reachable (with_memsize p inp out sz)
| reach_ok : forall sr sr', reachable sr -> step sr = StepOk sr' -> reachable sr'
| reach_err : forall sr sr' e, reachable sr -> step sr = StepErr sr' e -> reachable sr'
| reach_poke : forall sr sr' a l x,
    reachable sr -> get_data_at_mut sr a = (sr', Some l) ->
    reachable {| program := program sr';
                 runtime := set_memory (runtime sr') (store (memory (runtime sr')) l x);
                 index := index sr' |}.

Definition valid (sr : StepRunner) : Prop :=
  match index sr with
  | None => True
  | Some idx => exists q full i, body_at (program sr) q = Some full /\
                  idx = q ++ [i] /\ (i < length full)%nat
  end.

Lemma body_at_snoc_inv : forall q insts j full,
  body_at insts (q ++ [j]) = Some full ->
  exists full', body_at insts q = Some full' /\ nth_error full' j = Some (UntilZero full).
Proof.
  induction q as [|h t IH]; intros insts j full H; cbn [app body_at] in *.
  - exists insts. split; [reflexivity|].
    destruct (nth_error insts j) as [[| | | |sub]|]; try discriminate.
    cbn in H. inversion H; subst. reflexivity.
  - destruct (nth_error insts h) as [[| | | |sub]|]; try discriminate.
    exact (IH _ _ _ H).
Qed.

Lemma valid_step : forall sr,
  valid sr ->
  match step sr with
  | StepOk sr' | StepErr sr' _ => program sr' = program sr /\ valid sr'
  | StepPanic => False
  end.
Proof.
  intros [P rt [idx|]] Hv; unfold step; cbn [index program runtime] in *; [|split; [reflexivity|exact I]].
  destruct Hv as (q & full & i & Hb & -> & Hi).
  destruct (nth_error full i) as [inst|] eqn:En;
    [|apply nth_error_None in En; lia].
  rewrite (instruction_at_snoc q P full i Hb), En.
  destruct (exec_one inst rt) as [rt' [e|[|sub]]] eqn:He.
  - split; [reflexivity|]. exists q, full, i. auto.
  - unfold step_index. rewrite (step_index_snoc q P full i Hb).
    destruct (S i <? length full)%nat eqn:Elt.
    + split; [reflexivity|]. exists q, full, (S i). apply Nat.ltb_lt in Elt. auto.
    + rewrite step_out_snoc. destruct q as [|h t]; [split; [reflexivity|exact I]|].
      split; [reflexivity|]. cbn [valid index program].
      assert (Hne : h :: t <> []) by discriminate.
      destruct (exists_last Hne) as (q' & j & Hq). rewrite Hq in Hb |- *.
      destruct (body_at_snoc_inv q' P j full Hb) as (full' & Hb' & Hn').
      exists q', full', j. repeat split; auto.
      apply nth_error_Some. congruence.
  - pose proof (exec_one_stepin _ _ _ _ He) as ->.
    destruct sub as [|x xs].
    + split; [reflexivity|]. exists q, full, i. auto.
    + split; [reflexivity|]. cbn [valid index program]. unfold step_in.
      exists (q ++ [i]), (x :: xs), 0%nat. repeat split.
      * exact (body_at_snoc q P full i _ Hb En).
      * cbn. lia.
Qed.

Lemma reachable_valid : forall sr, reachable sr -> valid sr.
Proof.
  intros sr H. induction H as [p inp out sz|sr sr' _ IH E|sr sr' e _ IH E|sr sr' a l x _ IH E].
  - unfold with_memsize, valid, first_index. cbn [index program].
    destruct p as [|x xs]; [exact I|]. exists [], (x :: xs), 0%nat. split; [reflexivity|split; [reflexivity|cbn; lia]].
  - pose proof (valid_step sr IH) as V. rewrite E in V. exact (proj2 V).
  - pose proof (valid_step sr IH) as V. rewrite E in V. exact (proj2 V).
  - unfold get_data_at_mut in E. destruct (Runtime_get_data_at_mut _ _) as [rt' o].
    inversion E; subst. exact IH.
Qed.

(** A runner built by [with_memsize], then driven by [step] (also after
    an error) and by writes through [get_data_at_mut], never reaches the
    panicking indexing of [step], and its current instruction is always
    found. *)
Theorem step_never_panics : forall sr,
  reachable sr -> step sr <> StepPanic /\ get_current_instruction sr <> None.
Proof.
  intros sr H. pose proof (reachable_valid sr H) as Hv. split.
  - pose proof (valid_step sr Hv) as V. destruct (step sr); [discriminate|discriminate|contradiction].
  - unfold get_current_instruction. unfold valid in Hv.
    destruct (index sr) as [idx|]; [|discriminate].
    destruct Hv as (q & full & i & Hb & -> & Hi).
    rewrite (instruction_at_snoc q _ full i Hb).
    destruct (nth_error full i) eqn:En; [discriminate|apply nth_error_None in En; lia].
Qed.

End StepSafety.

(* ------------------------------------------------------------------ *)
Section ParserSafety.
Context {St : Type} `{TokenStream St}.

Lemma next_token_info_buf : forall ctx ctx1 r,
  next_token_info ctx = (ctx1, r) -> unget_buf ctx1 = None.
Proof.
  intros [s [u|]] ctx1 r E; unfold next_token_info in E; cbn [unget_buf token_stream] in E.
  - inversion E; reflexivity.
  - destruct (next s); inversion E; reflexivity.
Qed.

Lemma xadd_loop_no_panic : forall f ctx op inc dec, xadd_loop f ctx op inc dec <> PPanic.
Proof.
  induction f as [|f IH]; intros ctx op inc dec; cbn [xadd_loop]; [discriminate|].
  destruct (next_token_info ctx) as [ctx1 [e|info]] eqn:E; [discriminate|].
  destruct (opt_type_eqb _ inc); [apply IH|]. destruct (opt_type_eqb _ dec); [apply IH|].
  unfold unget_token_info. rewrite (next_token_info_buf _ _ _ E). discriminate.
Qed.

Lemma parse_loop_no_panic : forall f ctx top acc, parse_loop f ctx top acc <> PPanic.
Proof.
  induction f as [|f IH]; intros ctx top acc; cbn [parse_loop]; [discriminate|].
  destruct (next_token_info ctx) as [ctx1 [e|info]]; [discriminate|].
  destruct (info_token_type info) as [[]|].
  1-4: unfold push_xadd;
    match goal with
    | |- pbind (pbind (xadd_loop ?f' ?c ?o ?i ?d) _) _ <> _ =>
        pose proof (xadd_loop_no_panic f' c o i d);
        destruct (xadd_loop f' c o i d); cbn [pbind]; [apply IH|discriminate|contradiction|discriminate]
    end.
  1-2: apply IH.
  - pose proof (IH ctx1 false []).
    destruct (parse_loop f ctx1 false []); cbn [pbind]; [apply IH|discriminate|contradiction|discriminate].
  - destruct top; discriminate.
  - destruct top; discriminate.
Qed.

End ParserSafety.

(** The parser never panics: [parse_str] and [parse_str_fat] end in a
    program or in an error, whatever the token stream. *)
Theorem parser_never_panics {St : Type} `{TokenStream St} : forall fuel (s : St),
  parse_str fuel s <> PPanic /\ parse_str_fat fuel s <> PPanic.
Proof.
  intros fuel s. split; [apply parse_loop_no_panic|].
  unfold parse_str_fat.
  pose proof (parse_lockstep fuel (ctx_new s) true []) as X.
  pose proof (parse_loop_no_panic fuel (ctx_new s) true (as_program [])) as N.
  destruct (parse_loop_fat fuel (ctx_new s) true []) as [c [insts last]| | |];
    destruct (parse_loop fuel (ctx_new s) true (as_program [])) as [c2 p| | |];
    cbn [parse_rel] in X; try contradiction; cbn [pbind]; try discriminate.
  destruct X as (_ & _ & ->). discriminate.
Qed.

Section FatTokens.
Context {St : Type} `{TokenStream St}.

(** The token a context holds pushed back, as a list. *)
Definition buf_list (ctx : @ParseContext St) : list TokenInfo :=
  match unget_buf ctx with Some x => [x] | None => [] end.

Lemma yields_app : forall A B (s m s' : St),
  yields s A m -> yields m B s' -> yields s (A ++ B) s'.
Proof.
  induction A as [|x A IH]; intros B s m s' H1 H2; cbn in *.
  - subst m. exact H2.
  - destruct H1 as (s1 & E & Hy). exists s1. split; [exact E|]. eapply IH; eauto.
Qed.

Lemma ctx_yields_app : forall ctx A (m s' : St) B,
  ctx_yields ctx A m -> yields m B s' -> ctx_yields ctx (A ++ B) s'.
Proof.
  intros [s [u|]] A m s' B H1 H2; unfold ctx_yields in *; cbn [unget_buf token_stream] in *.
  - destruct H1 as (l' & -> & Hy). exists (l' ++ B). split; [reflexivity|]. eapply yields_app; eauto.
  - eapply yields_app; eauto.
Qed.

Lemma ctx_yields_compose : forall ctx c A B (s' : St),
  ctx_yields ctx (A ++ buf_list c) (token_stream c) -> ctx_yields c B s' ->
  ctx_yields ctx (A ++ B) s'.
Proof.
  intros ctx [s [y|]] A B s' H1 H2; unfold buf_list, ctx_yields in H2;
    cbn [unget_buf token_stream buf_list] in *.
  - destruct H2 as (l' & -> & Hy). replace (A ++ y :: l') with ((A ++ [y]) ++ l')
      by (rewrite <- app_assoc; reflexivity).
    eapply ctx_yields_app; eauto.
  - rewrite app_nil_r in H1. eapply ctx_yields_app; eauto.
Qed.

Lemma ctx_yields_next : forall ctx ctx1 x L (s' : St),
  next_token_info ctx = (ctx1, inr x) -> ctx_yields ctx1 L s' -> ctx_yields ctx (x :: L) s'.
Proof.
  intros [s [u|]] ctx1 x L s' E Hy; unfold next_token_info in E; cbn [unget_buf token_stream] in E.
  - inversion E; subst. unfold ctx_yields in *. cbn in *. exists L. auto.
  - destruct (next s) as [s1 r] eqn:En. inversion E; subst.
    unfold ctx_yields in *. cbn in *. exists s1. auto.
Qed.

Lemma ctx_yields_self : forall c, ctx_yields c (buf_list c) (token_stream c).
Proof.
  intros [s [y|]]; unfold ctx_yields, buf_list; cbn; [exists []; split; reflexivity|reflexivity].
Qed.

Lemma xadd_loop_fat_tokens : forall f ctx op toks inc dec c op' toks',
  xadd_loop_fat f ctx op toks inc dec = POk c (op', toks') ->
  exists l, toks' = toks ++ l /\ ctx_yields ctx (l ++ buf_list c) (token_stream c).
Proof.
  induction f as [|f IH]; intros ctx op toks inc dec c op' toks' E; cbn [xadd_loop_fat] in E;
    [discriminate|].
  destruct (next_token_info ctx) as [ctx1 [e|info]] eqn:En; [discriminate|].
  pose proof (next_token_info_buf _ _ _ En) as Hb.
  assert (Hstep : (exists l, toks' = (toks ++ [info]) ++ l /\
                               ctx_yields ctx1 (l ++ buf_list c) (token_stream c)) ->
            exists l, toks' = toks ++ l /\ ctx_yields ctx (l ++ buf_list c) (token_stream c)).
  { intros (l & -> & Hy). exists (info :: l). split; [rewrite <- app_assoc; reflexivity|].
    eapply ctx_yields_next; eauto. }
  destruct (opt_type_eqb _ inc); [exact (Hstep (IH _ _ _ _ _ _ _ _ E))|].
  destruct (opt_type_eqb _ dec); [exact (Hstep (IH _ _ _ _ _ _ _ _ E))|].
  unfold unget_token_info in E. rewrite Hb in E. inversion E; subst.
  exists []. split; [rewrite app_nil_r; reflexivity|].
  unfold buf_list. cbn. eapply ctx_yields_next; [exact En|].
  destruct ctx1 as [s1 u1]. cbn in Hb. subst u1. reflexivity.
Qed.

Lemma parse_loop_fat_tokens : forall f ctx top acc c insts last,
  parse_loop_fat f ctx top acc = POk c (insts, last) ->
  exists new t, insts = acc ++ new /\
    ctx_yields ctx (flat_map fat_tokens new ++ [t]) (token_stream c) /\
    unget_buf c = None /\
    (if top then last = None /\ token t = None else last = Some t).
Proof.
  induction f as [|f IH]; intros ctx top acc c insts last E; cbn [parse_loop_fat] in E;
    [discriminate|].
  destruct (next_token_info ctx) as [ctx1 [e|info]] eqn:En; [discriminate|].
  pose proof (next_token_info_buf _ _ _ En) as Hb.
  assert (Hself : ctx_yields ctx1 [] (token_stream ctx1))
    by (destruct ctx1 as [s1 u1]; cbn in Hb; subst u1; reflexivity).
  destruct (info_token_type info) as [[]|] eqn:Et.
  1-4: unfold push_xadd_fat in E;
    destruct (xadd_loop_fat f ctx1 _ [info] _ _) as [c0 [op toks]| | |] eqn:Ex;
    cbn [pbind] in E; try discriminate;
    destruct (xadd_loop_fat_tokens _ _ _ _ _ _ _ _ _ Ex) as (l & -> & Hy0);
    destruct (IH _ _ _ _ _ _ E) as (new & t & -> & Hy & Hc & Ht);
    eexists (_ :: new), t; split; [rewrite <- app_assoc; reflexivity|];
    split; [|split; assumption];
    cbn [flat_map fat_tokens app]; eapply ctx_yields_next; [exact En|];
    rewrite <- app_assoc; eapply ctx_yields_compose; eassumption.
  1-2: destruct (IH _ _ _ _ _ _ E) as (new & t & -> & Hy & Hc & Ht);
    eexists (_ :: new), t; split; [rewrite <- app_assoc; reflexivity|];
    split; [|split; assumption];
    cbn [flat_map fat_tokens app]; eapply ctx_yields_next; [exact En|];
    exact Hy.
  - destruct (parse_loop_fat f ctx1 false []) as [c0 [sub last0]| | |] eqn:Es;
      cbn [pbind] in E; try discriminate.
    destruct (IH _ _ _ _ _ _ Es) as (new0 & t0 & -> & Hy0 & Hc0 & Ht0).
    cbn in Ht0. subst last0.
    destruct (IH _ _ _ _ _ _ E) as (new & t & -> & Hy & Hc & Ht).
    eexists (_ :: new), t; split; [rewrite <- app_assoc; reflexivity|].
    split; [|split; assumption].
    cbn [flat_map fat_tokens app]. eapply ctx_yields_next; [exact En|].
    change (flat_map fat_tokens new0 ++ t0 :: []) with (flat_map fat_tokens new0 ++ [t0]).
    rewrite <- app_assoc.
    replace (flat_map fat_tokens new0 ++ [t0] ++ flat_map fat_tokens new ++ [t])
      with ((flat_map fat_tokens new0 ++ [t0]) ++ (flat_map fat_tokens new ++ [t]))
      by (rewrite <- app_assoc; reflexivity).
    eapply ctx_yields_compose; [|exact Hy].
    unfold buf_list. rewrite Hc0, app_nil_r. exact Hy0.
  - destruct top; [discriminate|]. inversion E; subst.
    exists [], info. rewrite app_nil_r. repeat split; auto.
    cbn. eapply ctx_yields_next; eauto.
  - destruct top; [|discriminate]. inversion E; subst.
    exists [], info. rewrite app_nil_r. repeat split; auto.
    + cbn. eapply ctx_yields_next; eauto.
    + unfold info_token_type in Et. destruct (token info); [discriminate|reflexivity].
Qed.

End FatTokens.

(** A successful [parse_str_fat] records in its fat instructions, in
    order, exactly the tokens it read; the stream then returned the end
    of input, and nothing is pushed back. *)
Theorem fat_parse_records_tokens {St : Type} `{TokenStream St} : forall fuel (s : St) c insts,
  parse_str_fat fuel s = POk c insts ->
  exists t, yields s (flat_map fat_tokens insts ++ [t]) (token_stream c) /\
            token t = None /\ unget_buf c = None.
Proof.
  intros fuel s c insts E. unfold parse_str_fat in E.
  destruct (parse_loop_fat fuel (ctx_new s) true []) as [c0 [insts0 last]| | |] eqn:Ep;
    cbn [pbind] in E; try discriminate.
  destruct last; [discriminate|]. inversion E; subst.
  destruct (parse_loop_fat_tokens _ _ _ _ _ _ _ Ep) as (new & t & -> & Hy & Hc & [_ Ht]).
  exists t. split; [exact Hy|auto].
Qed.

(* ------------------------------------------------------------------ *)
Module SimpleStreamFacts.
Import Simple SimpleFacts.

(** The symbol a spec gives to a token type. *)
Definition spec_symbol (spec : SimpleTokenSpec) (ty : TokenType) : Str :=
  match ty with
  | PInc => ptr_inc spec | PDec => ptr_dec spec | DInc => data_inc spec
  | DDec => data_dec spec | Token.Output => output spec | Token.Input => input spec
  | LoopHead => loop_head spec | LoopTail => loop_tail spec
  end.

(** Where a token the stream returns sits in the source [src]: a token
    is its type's symbol, found at its char position; the end of the
    stream is at the char length of [src]. *)
Definition located (spec : SimpleTokenSpec) (src : Str) (i : TokenInfo) : Prop :=
  match token i with
  | Some t => token_str t = spec_symbol spec (token_type t) /\
              exists rest, skipn (pos_in_chars i) src = token_str t ++ rest
  | None => pos_in_chars i = List.length src
  end.

Lemma table_entry : forall spec d,
  In d (token_table (to_tokenizer spec)) ->
  def_token d = spec_symbol spec (def_token_type d) /\ char_count d = List.length (def_token d).
Proof.
  intros spec d H. simpl in H. rewrite sort_by_key_In in H.
  simpl in H. intuition (subst; split; reflexivity).
Qed.

Lemma str_from_len : forall s, str_from s (str_len s) = Some [].
Proof. intros s. rewrite <- (app_nil_r s) at 1. apply str_from_app. Qed.

(** Once [SimpleTokenStream::next] has returned the end of the stream,
    it returns the same end again, without moving. *)
Theorem simple_eof_sticky : forall st st' i,
  stream_next st = (st', inr i) -> token i = None -> stream_next st' = (st', inr i).
Proof.
  intros st st' i H Ht. unfold stream_next in H.
  destruct (scan _ _ 0 0) as [[[[d rb] rc] h]|]; inversion H; subst; [discriminate|].
  unfold stream_next. cbn [source pos stream_pos_in_chars stream_table].
  rewrite str_from_len. cbn. rewrite Nat.add_0_r. reflexivity.
Qed.

Lemma scan_found : forall table head rb rc d rb' rc' h,
  scan table head rb rc = Some (d, rb', rc', h) ->
  exists k, (k < List.length head)%nat /\ h = skipn k head /\ rc' = (rc + k)%nat /\
            rb' = (rb + str_len (firstn k head))%nat /\
            In d table /\ starts_with h (def_token d) = true.
Proof.
  induction head as [|c rest IH]; intros rb rc d rb' rc' h H; cbn [scan] in H; [discriminate|].
  destruct (find_token_at (c :: rest) table) as [d0|] eqn:E.
  - inversion H; subst. exists 0%nat. unfold find_token_at in E.
    apply find_some in E as [Hin Hs]. cbn. repeat split; auto; lia.
  - destruct (IH _ _ _ _ _ _ H) as (k & Hk & -> & -> & -> & Hin & Hs).
    exists (S k). cbn [skipn firstn str_len fold_right length]. fold (str_len (firstn k rest)).
    repeat split; auto; lia.
Qed.

Lemma str_from_firstn : forall s k, str_from s (str_len (firstn k s)) = Some (skipn k s).
Proof.
  intros s k. rewrite <- (firstn_skipn k s) at 1. apply str_from_app.
Qed.

(** The stream's byte position is that of its char position in the
    source, and the char position is within the source. *)
Definition stream_inv (st : SimpleTokenStream) : Prop :=
  str_from (source st) (pos st) = Some (skipn (stream_pos_in_chars st) (source st)) /\
  (stream_pos_in_chars st <= List.length (source st))%nat.

Lemma stream_next_inv : forall spec st st' i,
  stream_table st = token_table (to_tokenizer spec) -> stream_inv st ->
  stream_next st = (st', inr i) ->
  stream_table st' = stream_table st /\ source st' = source st /\ stream_inv st' /\
  match token i with
  | Some t => token_str t = spec_symbol spec (token_type t) /\
              exists rest, skipn (pos_in_chars i) (source st) = token_str t ++ rest
  | None => pos_in_chars i = List.length (source st)
  end.
Proof.
  intros spec st st' i Ht [Hinv Hle] H. unfold stream_next in H.
  rewrite Hinv in H.
  destruct (scan _ _ 0 0) as [[[[d rb] rc] h]|] eqn:Es; inversion H; subst; clear H;
    cbn [stream_table source pos stream_pos_in_chars token pos_in_chars token_str token_type];
    (split; [reflexivity|split; [reflexivity|]]).
  - destruct (scan_found _ _ _ _ _ _ _ _ Es) as (k & Hk & -> & -> & -> & Hin & Hs).
    rewrite Ht in Hin. destruct (table_entry spec d Hin) as [Hsym Hcc].
    set (src := source st) in *. set (pc := stream_pos_in_chars st) in *.
    set (tok := def_token d) in *.
    pose proof (starts_with_app _ _ Hs) as Happ.
    set (rest := skipn (List.length tok) (skipn k (skipn pc src))) in Happ.
    assert (Hat : skipn (pc + k) src = tok ++ rest)
      by (rewrite Nat.add_comm, <- skipn_skipn; exact Happ).
    assert (Hrest : rest = skipn (pc + k + char_count d) src)
      by (unfold rest; rewrite Hcc, !skipn_skipn; f_equal; lia).
    assert (Hlen : (pc + k + char_count d <= List.length src)%nat).
    { pose proof (f_equal (@List.length Z) Hat) as L. rewrite length_skipn, length_app in L.
      rewrite length_skipn in Hk. lia. }
    split; [split|split].
    + cbn [source pos stream_pos_in_chars]. fold src.
      eapply str_from_trans; [eapply str_from_trans; [exact Hinv|apply str_from_firstn]|].
      rewrite Happ, str_from_app, Hrest. rewrite Nat.add_0_l. reflexivity.
    + cbn [source stream_pos_in_chars]. fold src. lia.
    + rewrite Happ, str_upto_app. exact Hsym.
    + rewrite Happ, str_upto_app. exists rest. rewrite <- Hat. f_equal.
  - cbn [source pos stream_pos_in_chars]. unfold stream_inv; cbn [source pos stream_pos_in_chars]. rewrite str_from_len, length_skipn.
    split; [split|].
    + rewrite skipn_all2 by lia. reflexivity.
    + lia.
    + lia.
Qed.

(** Every token the simple tokenizer returns is its type's symbol, found
    in the source at the char position it reports; the end of the stream
    is reported at the source's char length. *)
Theorem simple_tokens_located : forall spec src l s',
  yields (token_stream_of (to_tokenizer spec) src) l s' ->
  Forall (located spec src) l.
Proof.
  intros spec src l.
  assert (G : forall st s', stream_table st = token_table (to_tokenizer spec) ->
            source st = src -> stream_inv st -> yields st l s' ->
            Forall (located spec src) l).
  { induction l as [|x l IH]; intros st s' Ht Hs Hinv Hy; [constructor|].
    destruct Hy as (st1 & E & Hy).
    destruct (stream_next_inv spec st st1 x Ht Hinv E) as (Ht1 & Hs1 & Hinv1 & Hx).
    constructor.
    - rewrite <- Hs. exact Hx.
    - apply (IH st1 s'); [congruence|congruence|exact Hinv1|exact Hy]. }
  intros s' Hy. apply (G (token_stream_of (to_tokenizer spec) src) s' eq_refl eq_refl); [|exact Hy].
  unfold stream_inv, token_stream_of; cbn [source pos stream_pos_in_chars]. split; [destruct src; reflexivity|lia].
Qed.

End SimpleStreamFacts.

(* ------------------------------------------------------------------ *)
Module OokFacts.
Import Ook.

(** The two marks that spell a token type in Ook ([.] 46, [?] 63, [!] 33),
    read off the [match] of [OokTokenStream::next]. *)
Definition ook_marks (ty : TokenType) : Z * Z :=
  match ty with
  | PInc => (46, 63) | PDec => (63, 46) | DInc => (46, 46) | DDec => (33, 33)
  | Token.Output => (33, 46) | Token.Input => (46, 33)
  | LoopHead => (33, 63) | LoopTail => (63, 33)
  end.

(** ["Ook<m1> Ook<m2>"] *)
Definition ook_spelling (ty : TokenType) : Str :=
  let (a, b) := ook_marks ty in [79; 111; 107; a; 32; 79; 111; 107; b].

(** A program text: each token type spelled out, followed by a space. *)
Definition ook_text (tys : list TokenType) : Str :=
  concat (map (fun ty => ook_spelling ty ++ [32]) tys).

(** The tokens [next] returns on [ook_text tys], the first one at char [n]. *)
Fixpoint ook_expected (n : nat) (tys : list TokenType) : list TokenInfo :=
  match tys with
  | [] => []
  | ty :: r => {| token := Some {| token_type := ty; token_str := ook_spelling ty |};
                  pos_in_chars := n |} :: ook_expected (n + 10) r
  end.

Lemma str_len_app : forall a b, str_len (a ++ b) = (str_len a + str_len b)%nat.
Proof. intros a b. unfold str_len. rewrite fold_right_app. induction a; cbn; lia. Qed.

Lemma ook_scan_skip : forall pad h rp rc, Forall (fun c => c <> 79) pad ->
  ook_scan (pad ++ h) rp rc = ook_scan h (rp + str_len pad) (rc + List.length pad).
Proof.
  induction pad as [|c pad IH]; intros h rp rc Hf.
  - cbn. f_equal; lia.
  - inversion Hf as [|? ? Hc Hf']; subst. cbn [app ook_scan].
    replace (strip_prefix (c :: pad ++ h) COMMON_TOKEN_PART) with (@None Str)
      by (cbn [strip_prefix COMMON_TOKEN_PART]; rewrite (proj2 (Z.eqb_neq 79 c)) by congruence; reflexivity).
    rewrite IH by exact Hf'. cbn [str_len fold_right length]. fold (str_len pad).
    f_equal; lia.
Qed.

Lemma ook_token_at : forall st q pad a R t,
  source st = q ++ pad ++ [79; 111; 107; a] ++ R -> pos st = str_len q ->
  Forall (fun c => c <> 79) pad -> mark_type [a] = Some t ->
  next_ook_token st =
    ({| source := source st; pos := (str_len q + str_len pad + 4)%nat;
        stream_pos_in_chars := (stream_pos_in_chars st + List.length pad + 4)%nat |},
     {| ook_token_type := Some t; ook_pos := (str_len q + str_len pad)%nat;
        ook_pos_in_chars := (stream_pos_in_chars st + List.length pad)%nat |}).
Proof.
  intros st q pad a R t Hs Hp Hf Hm. unfold next_ook_token.
  rewrite Hs at 1. rewrite Hp, SimpleFacts.str_from_app, ook_scan_skip by exact Hf.
  cbn [app ook_scan]. cbn [strip_prefix COMMON_TOKEN_PART Z.eqb Pos.eqb].
  replace (mark_type (a :: R)) with (Some t) by (rewrite <- Hm; reflexivity).
  rewrite <- Hp. cbn [str_len fold_right COMMON_TOKEN_PART char_len_utf8].
  cbn. f_equal; f_equal; lia.
Qed.

Lemma mark_len : forall a t, mark_type [a] = Some t -> char_len_utf8 a = 1%nat.
Proof.
  intros a t H. unfold mark_type in H.
  destruct (Z.eqb_spec a 46); [subst; reflexivity|].
  destruct (Z.eqb_spec a 63); [subst; reflexivity|].
  destruct (Z.eqb_spec a 33); [subst; reflexivity|discriminate].
Qed.

Lemma ook_pair_marks : forall ty, exists t1 t2,
  mark_type [fst (ook_marks ty)] = Some t1 /\ mark_type [snd (ook_marks ty)] = Some t2 /\
  pair_token_type t1 t2 = Some ty.
Proof. destruct ty; eexists; eexists; repeat split. Qed.

Lemma ook_text_from : forall tys p pad (st : OokTokenStream),
  Forall (fun c => c <> 79) pad ->
  source st = p ++ pad ++ ook_text tys -> pos st = str_len p ->
  stream_pos_in_chars st = List.length p ->
  exists s', yields st (ook_expected (List.length p + List.length pad) tys) s' /\
             snd (next s') = inr {| token := None; pos_in_chars := List.length (source st) |}.
Proof.
  induction tys as [|ty tys IH]; intros p pad st Hf Hs Hp Hc.
  - exists st. split; [reflexivity|].
    unfold next, OokTokenStream_TokenStream, ook_next. unfold next_ook_token.
    rewrite Hs at 1. rewrite Hp, SimpleFacts.str_from_app.
    cbn [ook_text map concat]. rewrite app_nil_r, <- (app_nil_r pad), ook_scan_skip by exact Hf.
    cbn. rewrite Hc, Hs. cbn [ook_text map concat]. rewrite !length_app. cbn. do 3 f_equal. lia.
  - destruct (ook_pair_marks ty) as (t1 & t2 & H1 & H2 & Hty).
    destruct (ook_marks ty) as [a b] eqn:Em. cbn [fst snd] in H1, H2.
    pose proof (mark_len _ _ H1) as La. pose proof (mark_len _ _ H2) as Lb.
    set (R := ook_text tys).
    assert (Hsp : ook_spelling ty = [79; 111; 107; a; 32; 79; 111; 107; b])
      by (unfold ook_spelling; rewrite Em; reflexivity).
    assert (Hs1 : source st = p ++ pad ++ [79; 111; 107; a] ++ [32; 79; 111; 107; b; 32] ++ R)
      by (rewrite Hs; cbn [ook_text map concat]; rewrite Hsp; reflexivity).
    pose proof (ook_token_at st p pad a _ t1 Hs1 Hp Hf H1) as E1.
    set (q := p ++ pad ++ [79; 111; 107; a]).
    set (st1 := {| source := source st; pos := (str_len p + str_len pad + 4)%nat;
                   stream_pos_in_chars := (stream_pos_in_chars st + List.length pad + 4)%nat |}).
    assert (Hs2 : source st1 = q ++ [32] ++ [79; 111; 107; b] ++ [32] ++ R)
      by (cbn [st1 source]; rewrite Hs1; unfold q; rewrite <- !app_assoc; reflexivity).
    assert (Hp2 : pos st1 = str_len q)
      by (cbn [st1 pos]; unfold q; rewrite !str_len_app; cbn [str_len fold_right];
          rewrite La; cbn; lia).
    assert (Hf2 : Forall (fun c => c <> 79) [32]) by (repeat constructor; discriminate).
    pose proof (ook_token_at st1 q [32] b _ t2 Hs2 Hp2 Hf2 H2) as E2.
    set (p' := q ++ [32; 79; 111; 107; b]).
    set (st2 := {| source := source st1; pos := (str_len q + str_len [32%Z] + 4)%nat;
                   stream_pos_in_chars := (stream_pos_in_chars st1 + List.length [32%Z] + 4)%nat |}).
    destruct (IH p' [32] st2 Hf2) as (s' & Hy & Heof).
    + cbn [st2 source st1]. rewrite Hs1. unfold p', q. rewrite <- !app_assoc. reflexivity.
    + cbn [st2 pos]. unfold p'. rewrite str_len_app. cbn [str_len fold_right]. rewrite Lb. cbn. lia.
    + cbn [st2 st1 stream_pos_in_chars]. rewrite Hc. unfold p', q. rewrite !length_app. cbn. lia.
    + exists s'. split.
      * exists st2. split.
        -- unfold next, OokTokenStream_TokenStream, ook_next. rewrite E1.
           cbn [ook_token_type]. fold st1. rewrite E2. cbn [ook_token_type].
           rewrite Hty. f_equal. f_equal. f_equal.
           ++ f_equal. unfold str_slice. cbn [ook_pos source st1].
              replace (str_len p + str_len pad)%nat with (str_len (p ++ pad)) by apply str_len_app.
              rewrite Hs1, app_assoc, SimpleFacts.str_from_app.
              replace (str_len q + str_len [32%Z] + str_len COMMON_TOKEN_PART + 1 - str_len (p ++ pad))%nat
                with (str_len (ook_spelling ty))
                by (unfold q; rewrite Hsp, !str_len_app; cbn [str_len fold_right];
                    rewrite La, Lb; cbn; lia).
              rewrite Hsp. cbn [app]. symmetry.
              f_equal. symmetry. exact (SimpleFacts.str_upto_app [79; 111; 107; a; 32; 79; 111; 107; b] (32 :: R)).
           ++ cbn [ook_pos_in_chars]. rewrite Hc. reflexivity.
        -- replace (List.length p' + List.length [32%Z])%nat
             with (List.length p + List.length pad + 10)%nat in Hy
             by (unfold p', q; rewrite !length_app; cbn; lia).
           exact Hy.
      * rewrite Heof. cbn [st2 st1 source]. reflexivity.
Qed.

(** An Ook text made of token-type spellings ["Ook<m1> Ook<m2> "] is
    read back as those token types, in order, each at a char position ten
    apart, followed by the end of the stream at the text's length. *)
Theorem ook_round_trip : forall tys,
  exists s', yields (new (ook_text tys)) (ook_expected 0 tys) s' /\
             snd (next s') = inr {| token := None; pos_in_chars := List.length (ook_text tys) |}.
Proof.
  intros tys.
  apply (ook_text_from tys [] [] (new (ook_text tys))); [constructor|reflexivity|reflexivity|reflexivity].
Qed.

End OokFacts.

(* ------------------------------------------------------------------ *)
(** ** Instances of the properties above *)

Lemma store_then_read_witness :
  exists m l, get_mut (memory (Runtime_new [] vec_sink (Fixed 4))) 1 = inr (m, l) /\
    data_at (set_memory (Runtime_new [] vec_sink (Fixed 4)) (store m l 7)) 1 = Some 7 /\
    data_at (set_memory (Runtime_new [] vec_sink (Fixed 4)) (store m l 7)) 2 = Some 0.
Proof.
  destruct (get_mut (memory (Runtime_new [] vec_sink (Fixed 4))) 1) as [e|[m l]] eqn:E.
  - vm_compute in E. discriminate.
  - exists m, l. split; [reflexivity|split].
    + rewrite (store_then_read _ 1 m l 7 1 E). reflexivity.
    + rewrite (store_then_read _ 1 m l 7 2 E). vm_compute. reflexivity.
Defined.

Lemma new_runtime_reads_zero_witness :
  data_at (Runtime_new [] vec_sink BothInfinite) (-3) = Some 0 /\ 0 = 0.
Proof.
  split; [vm_compute; reflexivity|].
  exact (new_runtime_reads_zero [] vec_sink BothInfinite (-3) 0 ltac:(vm_compute; reflexivity)).
Defined.


Lemma out_of_bounds_is_pointer_witness :
  let rt := {| input := []; output := vec_sink; memory := Memory_new (Fixed 4); pointer := 10 |} in
  exec_one (DAdd 1) rt = (rt, inl (OutOfMemoryBounds 10)) /\
  (10 = pointer rt /\ rt = rt /\ data_at rt 10 = None).
Proof.
  intros rt. split; [vm_compute; reflexivity|].
  exact (out_of_bounds_is_pointer (DAdd 1) rt rt 10 ltac:(vm_compute; reflexivity)).
Defined.

Lemma run_streams_extend_witness :
  exists rt', Runner.run_internal 5 (Runtime_new [InByte 65] vec_sink (Fixed 4)) [Input; Output] = Done rt' /\
    (exists sfx, written (output rt') = written (output (Runtime_new [InByte 65] vec_sink (Fixed 4))) ++ sfx) /\
    (exists pre, input (Runtime_new [InByte 65] vec_sink (Fixed 4)) = pre ++ input rt').
Proof.
  destruct (Runner.run_internal 5 (Runtime_new [InByte 65] vec_sink (Fixed 4)) [Input; Output])
    as [r|r e|] eqn:E; try (vm_compute in E; discriminate).
  exists r. split; [reflexivity|].
  apply (run_streams_extend 5 _ [Input; Output] r). left. exact E.
Defined.

Lemma loop_exit_cell_zero_witness :
  exists rt', Runner.run_inst 10 (fst (exec_one (DAdd 2) (Runtime_new [] vec_sink (Fixed 4))))
                (UntilZero [DAdd (-1)]) = Done rt' /\
    data_at rt' (pointer rt') = Some 0.
Proof.
  destruct (Runner.run_inst 10 (fst (exec_one (DAdd 2) (Runtime_new [] vec_sink (Fixed 4))))
              (UntilZero [DAdd (-1)])) as [r|r e|] eqn:E; try (vm_compute in E; discriminate).
  exists r. split; [reflexivity|]. exact (loop_exit_cell_zero _ _ _ r E).
Defined.


Lemma step_never_panics_witness :
  let sr0 := StepRunner.with_memsize [DAdd 1; UntilZero [DAdd (-1)]] [] vec_sink (Fixed 4) in
  let sr1 := match StepRunner.step sr0 with StepRunner.StepOk s => s | _ => sr0 end in
  StepSafety.reachable sr1 /\
  (StepRunner.step sr1 <> StepRunner.StepPanic /\ StepRunnerAccess.get_current_instruction sr1 <> None).
Proof.
  intros sr0 sr1.
  assert (H : StepSafety.reachable sr1).
  { apply (StepSafety.reach_ok sr0 sr1); [apply StepSafety.reach_new|vm_compute; reflexivity]. }
  split; [exact H|exact (StepSafety.step_never_panics sr1 H)].
Defined.

Lemma fat_parse_records_tokens_witness :
  let ls := {| items := [inr {| token := Some {| token_type := PInc; token_str := [62] |};
                               pos_in_chars := 0 |}];
               last_pos_in_chars := 1 |} in
  exists c insts, parse_str_fat 10 ls = POk c insts /\
    exists t, yields ls (flat_map fat_tokens insts ++ [t]) (token_stream c) /\
              token t = None /\ unget_buf c = None.
Proof.
  intros ls.
  destruct (parse_str_fat 10 ls) as [c insts|e| |] eqn:E; try (vm_compute in E; discriminate).
  exists c, insts. split; [reflexivity|]. exact (fat_parse_records_tokens 10 ls c insts E).
Defined.

Lemma simple_eof_sticky_witness :
  let st := Simple.token_stream_of (Simple.to_tokenizer
              {| Simple.ptr_inc := [62]; Simple.ptr_dec := [60]; Simple.data_inc := [43]; Simple.data_dec := [45];
                 Simple.output := [46]; Simple.input := [44]; Simple.loop_head := [91]; Simple.loop_tail := [93] |}) [120] in
  exists st' i, Simple.stream_next st = (st', inr i) /\ token i = None /\ Simple.stream_next st' = (st', inr i).
Proof.
  intros st.
  destruct (Simple.stream_next st) as [st' [e|i]] eqn:E; [vm_compute in E; discriminate|].
  exists st', i. split; [reflexivity|].
  assert (Ht : token i = None) by (vm_compute in E; injection E as _ <-; reflexivity).
  split; [exact Ht|exact (SimpleStreamFacts.simple_eof_sticky st st' i E Ht)].
Defined.

Lemma simple_tokens_located_witness :
  let spec := {| Simple.ptr_inc := [62]; Simple.ptr_dec := [60]; Simple.data_inc := [43]; Simple.data_dec := [45];
                 Simple.output := [46]; Simple.input := [44]; Simple.loop_head := [91]; Simple.loop_tail := [93] |} in
  exists l s', yields (Simple.token_stream_of (Simple.to_tokenizer spec) [43; 120; 62]) l s' /\
    List.length l = 3%nat /\ Forall (SimpleStreamFacts.located spec [43; 120; 62]) l.
Proof.
  intros spec.
  destruct (Simple.stream_next (Simple.token_stream_of (Simple.to_tokenizer spec) [43; 120; 62])) as [s1 [e|i1]] eqn:E1;
    [vm_compute in E1; discriminate|].
  destruct (Simple.stream_next s1) as [s2 [e|i2]] eqn:E2;
    [vm_compute in E1; injection E1 as <- _; vm_compute in E2; discriminate|].
  destruct (Simple.stream_next s2) as [s3 [e|i3]] eqn:E3;
    [vm_compute in E1; injection E1 as <- _; vm_compute in E2; injection E2 as <- _;
     vm_compute in E3; discriminate|].
  assert (Y : yields (Simple.token_stream_of (Simple.to_tokenizer spec) [43; 120; 62]) [i1; i2; i3] s3)
    by (exists s1; split; [exact E1|exists s2; split; [exact E2|exists s3; split; [exact E3|reflexivity]]]).
  exists [i1; i2; i3], s3. split; [exact Y|split; [reflexivity|]].
  exact (SimpleStreamFacts.simple_tokens_located spec _ _ _ Y).
Defined.

